(** * Test-input generators of library-checker-problems

    A shallow embedding of two generators,

      - [datastructure/vertex_add_path_sum/gen/line.cpp]  (module [Line]),
      - [math/division_of_big_integers/gen/medium.cpp]    (module [Medium]),

    and the properties of their output.  Both programs are written
    against the [Random] class of [random.h] and the limit constants of
    their [params.h]. *)

From stdpp Require Import base tactics numbers list list_numbers relations strings pretty.
From Stdlib Require Import ZArith Lia Ascii.

Local Open Scope Z_scope.

(** ** Machine integers

    A C++ [int] is a 32-bit two's complement number, [size_t] and
    [uint64_t] are 64-bit unsigned numbers.  Values are kept in [Z]; a
    conversion to one of these types is written out where the source has
    one, and [int] arithmetic wraps (an overflow of signed arithmetic is
    undefined in C++; the model takes the two's complement result). *)

Definition INT_MIN : Z := - 2 ^ 31.
Definition INT_MAX : Z := 2 ^ 31 - 1.

Definition is_int (z : Z) : Prop := INT_MIN ≤ z ≤ INT_MAX.

Definition to_int (z : Z) : Z := (z + 2 ^ 31) `mod` 2 ^ 32 - 2 ^ 31.
Definition to_u64 (z : Z) : Z := z `mod` 2 ^ 64.
Definition to_char (z : Z) : ascii := ascii_of_N (Z.to_N (z `mod` 256)).

Definition int_add (a b : Z) : Z := to_int (a + b).
Definition int_sub (a b : Z) : Z := to_int (a - b).

(** [s.size()] and [s.push_back(c)] of [std::string]. *)
Definition size (s : string) : Z := Z.of_nat (String.length s).
Definition push_back (s : string) (c : ascii) : string := s +:+ String c EmptyString.

(** ** The Random Source *)

(** Modelled from the spec: the class [Random] of [random.h], whose source
    is not part of this development.  The spec gives its contract only: a state
    built from a 64-bit seed, [uniform lo hi] drawing a value of the closed
    range and failing when [lo > hi], and [perm n] drawing a bijection on
    [0 .. n-1]; every draw advances the state.  [RandomSource] has the
    operations and [RandomLaws] the contract; the generators are verified
    against every implementation of it. *)
Class RandomSource := {
  Gen : Type;
  Random : Z → Gen;
  uniform : Z → Z → Gen → option (Z * Gen);
  perm : Z → Gen → list Z * Gen
}.

Class RandomLaws (RS : RandomSource) : Prop := {
  uniform_range lo hi g :
    lo ≤ hi → ∃ x g', uniform lo hi g = Some (x, g') ∧ lo ≤ x ≤ hi;
  uniform_invalid lo hi g :
    hi < lo → uniform lo hi g = None;
  perm_bijection n g :
    0 ≤ n → (perm n g).1 ≡ₚ seqZ 0 n
}.

(** One implementation of the operations, used to run the generators on
    concrete seeds: a 64-bit linear congruential engine (Knuth's MMIX
    multiplier), a draw by reduction of the high bits, and a shuffle
    that inserts [0], [1], ... at drawn positions.  It stands in for the
    engine of [random.h]; all that is used of it is that it meets the
    contract ([lcg_laws]). *)
Module Lcg.

Definition next (g : Z) : Z :=
  (g * 6364136223846793005 + 1442695040888963407) `mod` 2 ^ 64.

Definition draw (lo hi g : Z) : option (Z * Z) :=
  if decide (lo ≤ hi)
  then let g' := next g in Some (lo + (g' ≫ 32) `mod` (hi - lo + 1), g')
  else None.

Definition insert_at (k : nat) (x : Z) (l : list Z) : list Z :=
  take k l ++ x :: drop k l.

Fixpoint shuffle (k : nat) (g : Z) : list Z * Z :=
  match k with
  | O => ([], g)
  | S k' =>
      let '(l, g1) := shuffle k' g in
      let g2 := next g1 in
      (insert_at (Z.to_nat ((g2 ≫ 32) `mod` Z.of_nat (S k'))) (Z.of_nat k') l, g2)
  end.

Definition source : RandomSource :=
  {| Gen := Z;
     Random := λ seed, seed;
     uniform := draw;
     perm := λ n, shuffle (Z.to_nat n) |}.

End Lcg.

(** ** Output, errors and the program monad *)

(** One call of [printf]: the format as the source has it, and the
    arguments. *)
Inductive arg :=
  | Int (z : Z)
  | Str (s : string).

Record event := Printf { fmt : string; args : list arg }.

(** The bytes a call of [printf] writes: [%d] and [%s] take the next
    argument, the escape [\n] is a line feed. *)
Fixpoint format (f : string) (a : list arg) : string :=
  match f with
  | EmptyString => EmptyString
  | String "%" (String "d" f') =>
      match a with
      | Int z :: a' => pretty z +:+ format f' a'
      | _ => format f' (tail a)
      end
  | String "%" (String "s" f') =>
      match a with
      | Str s :: a' => s +:+ format f' a'
      | _ => format f' (tail a)
      end
  | String "\" (String "n" f') => String "010" (format f' a)
  | String c f' => String c (format f' a)
  end.

Definition bytes (log : list event) : string :=
  foldr (λ e s, format (fmt e) (args e) +:+ s) EmptyString log.

(** A run ends normally, or with an uncaught error (the range assertion of
    the Random Source, [std::length_error] of a container, an access
    outside a container), or the model of [while (true)] runs out of
    fuel. *)
Inductive error := InvalidRangeError | LengthError | OutOfBounds.

Inductive Res (A : Type) :=
  | Done (a : A)
  | Fail (e : error)
  | OutOfFuel.
Arguments Done {A} a.
Arguments Fail {A} e.
Arguments OutOfFuel {A}.

Section Monad.
Context `{RS : RandomSource}.

(** The state a generator threads: its Random Source and what it has
    printed so far. *)
Record State := mkState { gen : Gen; stdout : list event }.

Definition M (A : Type) : Type := State → Res (A * State).

Definition ret {A} (a : A) : M A := λ st, Done (a, st).
Definition bind {A B} (m : M A) (k : A → M B) : M B :=
  λ st, match m st with
        | Done (a, st') => k a st'
        | Fail e => Fail e
        | OutOfFuel => OutOfFuel
        end.
Definition fail {A} (e : error) : M A := λ _, Fail e.

End Monad.

Declare Scope gen_scope.
Delimit Scope gen_scope with gen.
Notation "x ← m ; k" := (bind m (λ x, k))
  (at level 20, m at level 100, k at level 200, only parsing) : gen_scope.
Notation "' x ← m ; k" := (bind m (λ x, k))
  (at level 20, x pattern, m at level 100, k at level 200, only parsing) : gen_scope.
Notation "m ;; k" := (bind m (λ _, k))
  (at level 100, k at level 200, right associativity, only parsing) : gen_scope.
Open Scope gen_scope.

Section Operations.
Context `{RS : RandomSource}.

(** [gen.uniform(lo, hi)] and [gen.perm<int>(n)]. *)
Definition gen_uniform (lo hi : Z) : M Z :=
  λ st, match uniform lo hi (gen st) with
        | Some (x, g') => Done (x, mkState g' (stdout st))
        | None => Fail InvalidRangeError
        end.

Definition gen_perm (n : Z) : M (list Z) :=
  λ st, let '(p, g') := perm (to_u64 n) (gen st) in Done (p, mkState g' (stdout st)).

Definition printf (f : string) (a : list arg) : M unit :=
  λ st, Done (tt, mkState (gen st) (stdout st ++ [Printf f a])).

(** [std::vector]: the constructor takes a [size_t] count and throws above
    [max_size()]; [operator[]] takes a [size_t] index, and an index outside
    the vector is an error. *)
Definition vector_max_size : Z := 2 ^ 61 - 1.

Definition vector_new (count : Z) : M (list Z) :=
  let c := to_u64 count in
  if decide (c ≤ vector_max_size) then ret (replicate (Z.to_nat c) 0)
  else fail LengthError.

Definition vec_get {A} (l : list A) (i : Z) : M A :=
  let k := to_u64 i in
  match (if decide (k < Z.of_nat (length l)) then l !! Z.to_nat k else None) with
  | Some x => ret x
  | None => fail OutOfBounds
  end.

Definition vec_set {A} (l : list A) (i : Z) (x : A) : M (list A) :=
  let k := to_u64 i in
  if decide (k < Z.of_nat (length l)) then ret (<[Z.to_nat k := x]> l)
  else fail OutOfBounds.

(** [for (int i = 0; i < n; i++) body], the variables the body assigns
    passed along.  The counter stays below [n], so [i++] does not
    overflow. *)
Fixpoint for_loop {L} (i : Z) (cnt : nat) (body : Z → L → M L) (l : L) : M L :=
  match cnt with
  | O => ret l
  | S c => l' ← body i l; for_loop (i + 1) c body l'
  end.

Definition for_ {L} (n : Z) (body : Z → L → M L) (l : L) : M L :=
  for_loop 0 (Z.to_nat n) body l.

(** [while (true) body]: the body answers [inl] to go on and [inr] at
    [break]. *)
Fixpoint while_true {L} (fuel : nat) (body : L → M (L + L)) (l : L) : M L :=
  match fuel with
  | O => λ _, OutOfFuel
  | S f =>
      r ← body l;
      match r with
      | inl l' => while_true f body l'
      | inr l' => ret l'
      end
  end.

(** A run of [main]: [gen] is built from the seed, converted to
    [uint64_t]; the result is what has been printed. *)
Definition run (seed : Z) (m : M unit) : Res (list event) :=
  match m (mkState (Random (to_u64 seed)) []) with
  | Done (_, st) => Done (stdout st)
  | Fail e => Fail e
  | OutOfFuel => OutOfFuel
  end.

End Operations.

(** ** [vertex_add_path_sum/gen/line.cpp] *)
Module Line.
Section Line.
Context `{RS : RandomSource}.
(** The limit constants of [params.h]. *)
Variables N_AND_Q_MAX A_AND_X_MAX : Z.

Definition main (seed : Z) : Res (list event) :=
  run seed
   (let n := to_int N_AND_Q_MAX in
    let q := to_int N_AND_Q_MAX in
    printf "%d %d\n" [Int n; Int q];;
    for_ n (λ i _,
      x ← gen_uniform 0 (to_int A_AND_X_MAX);
      printf "%d" [Int x];;
      if decide (i ≠ int_sub n 1) then printf " " [] else ret tt) tt;;
    printf "\n" [];;
    u ← vector_new (int_sub n 1);
    v ← vector_new (int_sub n 1);
    '(u, v) ← for_ (int_sub n 1) (λ i '(u, v),
      u ← vec_set u i i;
      v ← vec_set v i (int_add i 1);
      ret (u, v)) (u, v);
    p ← gen_perm n;
    '(u, v) ← for_ (int_sub n 1) (λ i '(u, v),
      ui ← vec_get u i;
      pu ← vec_get p ui;
      u ← vec_set u i pu;
      vi ← vec_get v i;
      pv ← vec_get p vi;
      v ← vec_set v i pv;
      ret (u, v)) (u, v);
    for_ (int_sub n 1) (λ i _,
      ui ← vec_get u i;
      vi ← vec_get v i;
      printf "%d %d\n" [Int ui; Int vi]) tt;;
    for_ q (λ i _,
      t ← gen_uniform 0 1;
      printf "%d " [Int t];;
      if decide (t = 0) then
        p ← gen_uniform 0 (int_sub n 1);
        x ← gen_uniform 0 (to_int A_AND_X_MAX);
        printf "%d %d\n" [Int p; Int x]
      else
        u ← gen_uniform 0 (int_sub n 1);
        v ← gen_uniform 0 (int_sub n 1);
        printf "%d %d\n" [Int u; Int v]) tt).

End Line.
End Line.

(** ** [division_of_big_integers/gen/medium.cpp] *)
Module Medium.
Section Medium.
Context `{RS : RandomSource}.
(** The limit constant of [params.h]. *)
Variable SUM_OF_CHARACTER_LENGTH : Z.

(** [vector{10, 300, 10000}[seed % 3]]: [%] truncates towards zero.  The
    subscript of [std::vector] is unchecked and an index outside the table
    is undefined behaviour; the run ends there in [OutOfBounds], and what
    the program does with the word it reads is not modelled.  What is
    proved of whole runs of [medium.cpp] is said of seeds with
    [seed % 3 >= 0]. *)
Definition tier (seed : Z) : M Z :=
  vec_get [10; 300; 10000] (seed `rem` 3).

(** Lines 25-28 and 29-32: the digits of [A] and of [B]. *)
Definition digits_a (alen : Z) : M string :=
  for_ alen (λ i sa,
    let lower := if decide (alen ≠ 1 ∧ i = 0) then 1 else 0 in
    d ← gen_uniform lower 9;
    ret (push_back sa (to_char (int_add 48 d)))) EmptyString.

Definition digits_b (blen : Z) : M string :=
  for_ blen (λ i sb,
    let lower := if decide (i = 0) then 1 else 0 in
    d ← gen_uniform lower 9;
    ret (push_back sb (to_char (int_add 48 d)))) EmptyString.

(** The variables of the loop: [A], [B] and [lsum]. *)
Definition vars : Type := list string * list string * Z.

(** Lines 17-36, one turn of [while (true)]. *)
Definition body (upper : Z) : vars → M (vars + vars) :=
  λ '(A, B, lsum),
    alen ← gen_uniform 1 upper;
    blen ← gen_uniform 1 upper;
    c ← gen_uniform 0 9;
    let '(alen, blen) :=
      if decide (c ≠ 0) then
        if decide (alen < blen) then (blen, alen) else (alen, blen)
      else (alen, blen) in
    sa ← digits_a alen;
    sb ← digits_b blen;
    let lsum := to_int (to_u64 (to_u64 lsum + to_u64 (size sa + size sb))) in
    if decide (lsum > SUM_OF_CHARACTER_LENGTH) then ret (inr (A, B, lsum))
    else ret (inl (A ++ [sa], B ++ [sb], lsum)).

(** Lines 14-37. *)
Definition generate (fuel : nat) (upper : Z) : M vars :=
  while_true fuel (body upper) ([], [], 0).

(** Lines 39-42. *)
Definition print (A B : list string) : M unit :=
  printf "%d\n" [Int (to_int (Z.of_nat (length A)))];;
  for_ (to_int (Z.of_nat (length A))) (λ i _,
    a ← vec_get A i;
    b ← vec_get B i;
    printf "%s %s\n" [Str a; Str b]) tt.

Definition program (fuel : nat) (seed : Z) : M unit :=
  upper ← tier seed;
  '(A, B, _) ← generate fuel upper;
  print A B.

Definition main (fuel : nat) (seed : Z) : Res (list event) :=
  run (seed + 12345) (program fuel seed).

End Medium.
End Medium.

(** The bytes on standard output after a normal end. *)
Definition output (r : Res (list event)) : option string :=
  match r with
  | Done log => Some (bytes log)
  | _ => None
  end.

(** ** What the generators print *)

(** *** The tree instance of [line.cpp]: the values of the second line,
    the edge lines and the query lines, and the calls of [printf] that
    print them. *)
Inductive query :=
  | Update (p x : Z)
  | PathSum (u v : Z).

Record instance := mkInstance {
  values : list Z;
  edges : list (Z * Z);
  queries : list query
}.

Fixpoint value_events (n i : Z) (vals : list Z) : list event :=
  match vals with
  | [] => []
  | x :: vals' =>
      Printf "%d" [Int x]
        :: (if decide (i ≠ n - 1) then [Printf " " []] else [])
        ++ value_events n (i + 1) vals'
  end.

Definition edge_event (e : Z * Z) : event :=
  Printf "%d %d\n" [Int e.1; Int e.2].

Definition query_events (q : query) : list event :=
  match q with
  | Update p x => [Printf "%d " [Int 0]; Printf "%d %d\n" [Int p; Int x]]
  | PathSum u v => [Printf "%d " [Int 1]; Printf "%d %d\n" [Int u; Int v]]
  end.

Definition tree_layout (n q : Z) (inst : instance) : list event :=
  Printf "%d %d\n" [Int n; Int q]
    :: value_events n 0 (values inst)
    ++ Printf "\n" []
    :: (edge_event <$> edges inst)
    ++ (queries inst ≫= query_events).

(** A query refers to vertices below [n] and to values up to [x_max]. *)
Definition query_in_range (n x_max : Z) (q : query) : Prop :=
  match q with
  | Update p x => 0 ≤ p < n ∧ 0 ≤ x ≤ x_max
  | PathSum u v => 0 ≤ u < n ∧ 0 ≤ v < n
  end.

(** *** Graphs given by a list of edges on the vertices [0 .. n-1] *)

Definition adjacent (E : list (Z * Z)) (a b : Z) : Prop :=
  (a, b) ∈ E ∨ (b, a) ∈ E.

Definition connected (n : Z) (E : list (Z * Z)) : Prop :=
  ∀ a b, 0 ≤ a < n → 0 ≤ b < n → rtc (adjacent E) a b.

(** [walk E a js b]: from [a] to [b] along the edges at the positions [js]
    of the list, each taken in either direction. *)
Inductive walk (E : list (Z * Z)) : Z → list nat → Z → Prop :=
  | walk_nil a : walk E a [] a
  | walk_cons a b c j js :
      E !! j = Some (a, b) ∨ E !! j = Some (b, a) →
      walk E b js c →
      walk E a (j :: js) c.

(** No closed walk uses every edge at most once, the empty one apart. *)
Definition acyclic (E : list (Z * Z)) : Prop :=
  ∀ a js, walk E a js a → NoDup js → js = [].

Definition is_tree (n : Z) (E : list (Z * Z)) : Prop :=
  Z.of_nat (length E) = n - 1
  ∧ (∀ a b, (a, b) ∈ E → 0 ≤ a < n ∧ 0 ≤ b < n)
  ∧ connected n E
  ∧ acyclic E.

(** The path [0 - 1 - ... - (n-1)], a relabelling of the endpoints, the
    entry [p[i]] of a vector and the inverse of a permutation. *)
Definition path (n : Z) : list (Z * Z) :=
  (λ i, (i, i + 1)) <$> seqZ 0 (n - 1).

Definition relabel (f : Z → Z) (E : list (Z * Z)) : list (Z * Z) :=
  prod_map f f <$> E.

Definition entry (p : list Z) (i : Z) : Z := p !!! Z.to_nat i.

Definition inverse (p : list Z) (x : Z) : Z :=
  match list_find (λ y, y = x) p with
  | Some (i, _) => Z.of_nat i
  | None => -1
  end.

(** *** The pairs of [medium.cpp] *)

Definition pair_event (ab : string * string) : event :=
  Printf "%s %s\n" [Str ab.1; Str ab.2].

Definition pairs_layout (ps : list (string * string)) : list event :=
  Printf "%d\n" [Int (Z.of_nat (length ps))] :: (pair_event <$> ps).

(** The sum of [|A_i| + |B_i|]. *)
Definition total (ps : list (string * string)) : Z :=
  foldr (λ ab s, size ab.1 + size ab.2 + s) 0 ps.

(** The running total after a candidate, as line 33 computes it. *)
Definition next_lsum (lsum : Z) (sa sb : string) : Z :=
  to_int (to_u64 (to_u64 lsum + to_u64 (size sa + size sb))).

(** The largest entry of the table of tiers. *)
Definition TIER_MAX : Z := 10000.

(** Budgets for which the [int] total of line 33 is exact: a candidate adds
    at most [2 * TIER_MAX] characters. *)
Definition valid_budget (budget : Z) : Prop :=
  0 ≤ budget ∧ budget + 2 * TIER_MAX ≤ INT_MAX.

Definition first_char (s : string) : option ascii :=
  match s with
  | EmptyString => None
  | String c _ => Some c
  end.

(** [B] is not empty and does not start with ['0']; [A] is not empty and
    starts with ['0'] only when it is one character long. *)
Definition well_formed_pair (ab : string * string) : Prop :=
  1 ≤ size ab.1
  ∧ (first_char ab.1 = Some "0"%char → size ab.1 = 1)
  ∧ 1 ≤ size ab.2
  ∧ first_char ab.2 ≠ Some "0"%char.

(** *** The loop of [medium.cpp] *)

Section Loop.
Context `{RS : RandomSource}.
Variable SUM_OF_CHARACTER_LENGTH : Z.

(** The variables of the loop between two turns: the running total is the
    length of the accepted pairs and within the budget. *)
Definition loop_inv (st0 : State) (l : Medium.vars) (st : State) : Prop :=
  let '(A, B, lsum) := l in
  stdout st = stdout st0 ∧ length A = length B
  ∧ Forall well_formed_pair (zip A B)
  ∧ lsum = total (zip A B) ∧ lsum ≤ SUM_OF_CHARACTER_LENGTH.

(** The variables at [break]: the accepted pairs are within the budget, and
    a candidate that is not among them took the total over it. *)
Definition loop_post (st0 : State) (l : Medium.vars) (st : State) : Prop :=
  let '(A, B, lsum) := l in
  stdout st = stdout st0 ∧ length A = length B
  ∧ Forall well_formed_pair (zip A B)
  ∧ total (zip A B) ≤ SUM_OF_CHARACTER_LENGTH
  ∧ ∃ sa sb, well_formed_pair (sa, sb)
      ∧ lsum = total (zip A B) + size sa + size sb
      ∧ SUM_OF_CHARACTER_LENGTH < lsum.

(** The turns left, at two characters a turn. *)
Definition loop_measure (l : Medium.vars) : nat :=
  Z.to_nat ((SUM_OF_CHARACTER_LENGTH - l.2) `div` 2).

End Loop.

(** ** The text of the output, digits and numbers *)

(** The bytes of the instances, line by line: numbers in decimal, one blank
    between two tokens of a line, a line feed after every line. *)
Definition LF : string := String "010" EmptyString.

Fixpoint values_text (vals : list Z) : string :=
  match vals with
  | [] => EmptyString
  | x :: vals' =>
      match vals' with
      | [] => pretty x
      | _ :: _ => pretty x +:+ " " +:+ values_text vals'
      end
  end.

Definition edge_text (e : Z * Z) : string :=
  pretty e.1 +:+ " " +:+ pretty e.2 +:+ LF.

Definition query_text (q : query) : string :=
  match q with
  | Update p x => "0 " +:+ pretty p +:+ " " +:+ pretty x +:+ LF
  | PathSum u v => "1 " +:+ pretty u +:+ " " +:+ pretty v +:+ LF
  end.

Definition lines (ls : list string) : string := foldr String.append EmptyString ls.

Definition tree_text (n q : Z) (inst : instance) : string :=
  pretty n +:+ " " +:+ pretty q +:+ LF
    +:+ values_text (values inst) +:+ LF
    +:+ lines (edge_text <$> edges inst)
    +:+ lines (query_text <$> queries inst).

Definition pair_text (ab : string * string) : string :=
  ab.1 +:+ " " +:+ ab.2 +:+ LF.

Definition pairs_text (ps : list (string * string)) : string :=
  pretty (Z.of_nat (length ps)) +:+ LF +:+ lines (pair_text <$> ps).

(** Decimal digits, and the number a string of digits denotes. *)
Definition is_digit (c : ascii) : Prop := (48 ≤ N_of_ascii c ≤ 57)%N.

Definition all_digits (s : string) : Prop :=
  Forall is_digit (String.list_ascii_of_string s).

Definition digit_value (c : ascii) : N := (N_of_ascii c - 48)%N.

Fixpoint number_from (acc : N) (s : string) : N :=
  match s with
  | EmptyString => acc
  | String c s' => number_from (10 * acc + digit_value c)%N s'
  end.

Definition number (s : string) : N := number_from 0 s.

(** A pair of [medium.cpp] drawn with the tier [upper]. *)
Definition digit_pair (upper : Z) (ab : string * string) : Prop :=
  well_formed_pair ab
  ∧ size ab.1 ≤ upper ∧ size ab.2 ≤ upper
  ∧ all_digits ab.1 ∧ all_digits ab.2.

(** The tier of line 12 for the residues 0, 1 and 2 of the seed. *)
Definition tier_of (r : Z) : Z :=
  match r with
  | 0 => 10
  | 1 => 300
  | _ => 10000
  end.

(** ** Example runs

    The generators run on the engine [Lcg]: [line.cpp] with
    [N_AND_Q_MAX = 3], [A_AND_X_MAX = 5] and seed 1, [medium.cpp] with a
    budget of 50 characters and seed 0 (the tier is 10). *)

Definition example_tree_log : list event :=
  Eval vm_compute in
    match Line.main (RS := Lcg.source) 3 5 1 with
    | Done log => log
    | _ => []
    end.

Definition example_pairs_log : list event :=
  Eval vm_compute in
    match Medium.main (RS := Lcg.source) 50 26 0 with
    | Done log => log
    | _ => []
    end.

Definition example_start : State (RS := Lcg.source) :=
  mkState (RS := Lcg.source) (to_u64 12345) [].

Definition example_vars : Medium.vars :=
  Eval vm_compute in
    match Medium.generate (RS := Lcg.source) 50 26 10 example_start with
    | Done (l, _) => l
    | _ => ([], [], 0)
    end.

Definition example_end : State (RS := Lcg.source) :=
  Eval vm_compute in
    match Medium.generate (RS := Lcg.source) 50 26 10 example_start with
    | Done (_, st) => st
    | _ => example_start
    end.

(** ** Reasoning about runs *)

Section Wp.
Context `{RS : RandomSource}.

(** [m] never ends in the range error of the Random Source. *)
Definition no_range_error {A} (m : M A) : Prop :=
  ∀ st, m st ≠ Fail InvalidRangeError.

(** [m] run from [st] ends normally, with a result and a state in [Q]. *)
Definition wp {A} (m : M A) (st : State) (Q : A → State → Prop) : Prop :=
  ∃ a st', m st = Done (a, st') ∧ Q a st'.

End Wp.

(** * Properties *)

(** ** The linear congruential engine meets the contract *)

Lemma lcg_draw_range lo hi g :
  lo ≤ hi → ∃ x g', Lcg.draw lo hi g = Some (x, g') ∧ lo ≤ x ≤ hi.
Proof.
  intros Hle. unfold Lcg.draw. rewrite decide_True by done.
  eexists _, _; split; [done|].
  pose proof (Z.mod_pos_bound (Lcg.next g ≫ 32) (hi - lo + 1)). lia.
Qed.

Lemma lcg_draw_invalid lo hi g : hi < lo → Lcg.draw lo hi g = None.
Proof. intros Hlt. unfold Lcg.draw. by rewrite decide_False by lia. Qed.

Lemma lcg_insert_at_perm k x l : Lcg.insert_at k x l ≡ₚ l ++ [x].
Proof.
  unfold Lcg.insert_at.
  rewrite <- Permutation_middle, <- Permutation_cons_append.
  by rewrite take_drop.
Qed.

Lemma lcg_shuffle_perm k g : (Lcg.shuffle k g).1 ≡ₚ seqZ 0 (Z.of_nat k).
Proof.
  induction k as [|k IH]; [done|].
  rewrite seqZ_S. cbn [Lcg.shuffle].
  destruct (Lcg.shuffle k g) as [l g1]; simpl in *.
  by rewrite lcg_insert_at_perm, IH.
Qed.

#[global] Instance lcg_laws : RandomLaws Lcg.source.
Proof.
  split; simpl.
  - apply lcg_draw_range.
  - apply lcg_draw_invalid.
  - intros n g Hn. by rewrite lcg_shuffle_perm, Z2Nat.id.
Qed.

(** ** Conversions inside the range of the type *)

Example to_int_wraps : to_int (2 ^ 31) = - 2 ^ 31.
Proof. reflexivity. Qed.

Example to_u64_minus_one : to_u64 (-1) = 2 ^ 64 - 1.
Proof. reflexivity. Qed.

Example to_char_digit : to_char (int_add 48 7) = "7"%char.
Proof. reflexivity. Qed.

Example format_edge_line :
  format "%d %d\n" [Int 3; Int (-7)] = "3 -7" +:+ String "010" EmptyString.
Proof. reflexivity. Qed.

Example format_pair_line :
  format "%s %s\n" [Str "120"; Str "7"] = "120 7" +:+ String "010" EmptyString.
Proof. reflexivity. Qed.

(** Linear arithmetic over the bounds of the machine types and of the
    limit constants. *)
Ltac int_lia :=
  unfold is_int, valid_budget, INT_MIN, INT_MAX, TIER_MAX, vector_max_size in *; lia.

Lemma to_int_id z : is_int z → to_int z = z.
Proof.
  unfold is_int, INT_MIN, INT_MAX, to_int. intros Hz.
  rewrite Z.mod_small; lia.
Qed.

Lemma to_int_range z : is_int (to_int z).
Proof.
  unfold is_int, INT_MIN, INT_MAX, to_int.
  pose proof (Z.mod_pos_bound (z + 2 ^ 31) (2 ^ 32)). lia.
Qed.

Lemma to_u64_id z : 0 ≤ z < 2 ^ 64 → to_u64 z = z.
Proof. intros Hz. unfold to_u64. by rewrite Z.mod_small. Qed.

Lemma to_u64_small z : 0 ≤ z ≤ INT_MAX → to_u64 z = z.
Proof. unfold INT_MAX. intros Hz. apply to_u64_id. lia. Qed.

Lemma int_sub_id a b : is_int (a - b) → int_sub a b = a - b.
Proof. apply to_int_id. Qed.

Lemma int_add_id a b : is_int (a + b) → int_add a b = a + b.
Proof. apply to_int_id. Qed.

Lemma to_int_le z : 0 ≤ z → to_int z ≤ z.
Proof.
  intros Hz. unfold to_int.
  pose proof (Z.mod_le (z + 2 ^ 31) (2 ^ 32)). lia.
Qed.

(** ** Rules for [wp] *)

Section WpRules.
Context {RS : RandomSource} {RL : RandomLaws RS}.

Lemma wp_ret {A} (a : A) st Q : Q a st → wp (ret a) st Q.
Proof. intros HQ. by exists a, st. Qed.

Lemma wp_bind {A B} (m : M A) (k : A → M B) st Q :
  wp m st (λ a st', wp (k a) st' Q) → wp (bind m k) st Q.
Proof.
  intros (a & st' & Hm & b & st'' & Hk & HQ).
  exists b, st''. unfold bind. by rewrite Hm.
Qed.

Lemma wp_mono {A} (m : M A) st (Q Q' : A → State → Prop) :
  wp m st Q → (∀ a st', Q a st' → Q' a st') → wp m st Q'.
Proof. intros (a & st' & Hm & HQ) Himp. exists a, st'. eauto. Qed.

Lemma wp_uniform lo hi st (Q : Z → State → Prop) :
  lo ≤ hi →
  (∀ x g', lo ≤ x ≤ hi → Q x (mkState g' (stdout st))) →
  wp (gen_uniform lo hi) st Q.
Proof.
  intros Hle HQ.
  destruct (uniform_range lo hi (gen st) Hle) as (x & g' & Hu & Hx).
  exists x, (mkState g' (stdout st)). unfold gen_uniform. rewrite Hu. auto.
Qed.

Lemma wp_perm n st (Q : list Z → State → Prop) :
  0 ≤ n ≤ INT_MAX →
  (∀ p g', (p, g') = perm n (gen st) → p ≡ₚ seqZ 0 n →
     Q p (mkState g' (stdout st))) →
  wp (gen_perm n) st Q.
Proof.
  intros Hn HQ. unfold wp, gen_perm.
  rewrite to_u64_small by done.
  pose proof (perm_bijection n (gen st) (proj1 Hn)) as Hp.
  destruct (perm n (gen st)) as [p g'] eqn:Hdraw. eauto.
Qed.

Lemma wp_printf f a st (Q : unit → State → Prop) :
  Q tt (mkState (gen st) (stdout st ++ [Printf f a])) → wp (printf f a) st Q.
Proof. intros HQ. by eexists _, _. Qed.

Lemma wp_vector_new c st (Q : list Z → State → Prop) :
  0 ≤ c ≤ INT_MAX →
  Q (replicate (Z.to_nat c) 0) st → wp (vector_new c) st Q.
Proof.
  intros Hc HQ. unfold vector_new. rewrite to_u64_small by done.
  rewrite decide_True by int_lia.
  by apply wp_ret.
Qed.

Lemma wp_vec_get {A} (l : list A) i x st (Q : A → State → Prop) :
  0 ≤ i ≤ INT_MAX → l !! Z.to_nat i = Some x →
  Q x st → wp (vec_get l i) st Q.
Proof.
  intros Hi Hl HQ. unfold vec_get. rewrite to_u64_small by done.
  apply lookup_lt_Some in Hl as Hlt.
  rewrite decide_True by lia. rewrite Hl. by apply wp_ret.
Qed.

Lemma wp_vec_set {A} (l : list A) i x st (Q : list A → State → Prop) :
  0 ≤ i ≤ INT_MAX → (Z.to_nat i < length l)%nat →
  Q (<[Z.to_nat i := x]> l) st → wp (vec_set l i x) st Q.
Proof.
  intros Hi Hlt HQ. unfold vec_set. rewrite to_u64_small by done.
  rewrite decide_True by lia. by apply wp_ret.
Qed.

(** The rule of [for]: [Inv i] holds before the turn of index [i]. *)
Lemma wp_for_loop {L} (Inv : Z → L → State → Prop) i cnt body (l : L) st :
  Inv i l st →
  (∀ j l st, i ≤ j < i + Z.of_nat cnt → Inv j l st →
     wp (body j l) st (Inv (j + 1))) →
  wp (for_loop i cnt body l) st (Inv (i + Z.of_nat cnt)).
Proof.
  revert i l st. induction cnt as [|cnt IH]; intros i l st Hinv Hbody.
  - simpl. apply wp_ret. by replace (i + Z.of_nat 0) with i by lia.
  - cbn [for_loop]. apply wp_bind.
    eapply wp_mono; [apply Hbody; [lia|done]|].
    intros l' st' Hinv'. simpl.
    replace (i + Z.of_nat (S cnt)) with ((i + 1) + Z.of_nat cnt) by lia.
    apply IH; [done|]. intros j l'' st'' Hj. apply Hbody. lia.
Qed.

Lemma wp_for {L} (Inv : Z → L → State → Prop) n body (l : L) st :
  0 ≤ n →
  Inv 0 l st →
  (∀ j l st, 0 ≤ j < n → Inv j l st → wp (body j l) st (Inv (j + 1))) →
  wp (for_ n body l) st (Inv n).
Proof.
  intros Hn Hinv Hbody. unfold for_.
  replace n with (0 + Z.of_nat (Z.to_nat n)) at 2 by lia.
  apply wp_for_loop; [done|]. intros j l' st' Hj. apply Hbody. lia.
Qed.

(** The rules of [while (true)]: what holds at [break] whatever the fuel,
    and an end within the fuel when a measure goes down at every turn. *)
Lemma while_true_done {L} (Inv Post : L → State → Prop) (body : L → M (L + L)) :
  (∀ l st, Inv l st →
     wp (body l) st (λ r st',
       match r with inl l' => Inv l' st' | inr l' => Post l' st' end)) →
  ∀ fuel l st l' st',
    Inv l st → while_true fuel body l st = Done (l', st') → Post l' st'.
Proof.
  intros Hbody. induction fuel as [|fuel IH]; intros l st l' st' Hinv; [done|].
  cbn [while_true]. unfold bind at 1.
  destruct (Hbody l st Hinv) as (r & st1 & -> & Hr).
  destruct r as [l1|l1].
  - by apply IH.
  - unfold ret. by intros [= <- <-].
Qed.

Lemma wp_while_true {L} (Inv Post : L → State → Prop) (μ : L → nat)
    (body : L → M (L + L)) :
  (∀ l st, Inv l st →
     wp (body l) st (λ r st',
       match r with
       | inl l' => Inv l' st' ∧ (μ l' < μ l)%nat
       | inr l' => Post l' st'
       end)) →
  ∀ fuel l st,
    Inv l st → (μ l < fuel)%nat → wp (while_true fuel body l) st Post.
Proof.
  intros Hbody. induction fuel as [|fuel IH]; intros l st Hinv Hfuel; [lia|].
  cbn [while_true]. apply wp_bind.
  eapply wp_mono; [by apply Hbody|].
  intros [l1|l1] st1; simpl.
  - intros [Hinv1 Hμ]. apply IH; [done|lia].
  - by apply wp_ret.
Qed.

(** A body that never fails leaves [while (true)] no way to fail. *)
Lemma while_true_no_fail {L} (Inv : L → State → Prop) (body : L → M (L + L)) :
  (∀ l st, Inv l st →
     wp (body l) st (λ r st',
       match r with inl l' => Inv l' st' | inr _ => True end)) →
  ∀ fuel l st e, Inv l st → while_true fuel body l st ≠ Fail e.
Proof.
  intros Hbody. induction fuel as [|fuel IH]; intros l st e Hinv; [done|].
  cbn [while_true]. unfold bind at 1.
  destruct (Hbody l st Hinv) as (r & st1 & -> & Hr).
  destruct r as [l1|l1]; [by apply IH|done].
Qed.

(** More fuel does not change the result of a loop that has ended. *)
Lemma while_true_fuel {L} (body : L → M (L + L)) fuel fuel' l st r :
  while_true fuel body l st = Done r → (fuel ≤ fuel')%nat →
  while_true fuel' body l st = Done r.
Proof.
  revert fuel' l st. induction fuel as [|fuel IH]; intros fuel' l st; [done|].
  intros Hrun Hle. destruct fuel' as [|fuel']; [lia|].
  cbn [while_true] in *. unfold bind in *.
  destruct (body l st) as [[[l1|l1] st1]| |]; [|done..].
  apply IH; [done|lia].
Qed.

(** Runs that cannot end in [InvalidRangeError]. *)
Lemma no_range_error_ret {A} (a : A) : no_range_error (ret a).
Proof. by intros st. Qed.

Lemma no_range_error_bind {A B} (m : M A) (k : A → M B) :
  no_range_error m → (∀ a, no_range_error (k a)) → no_range_error (bind m k).
Proof.
  intros Hm Hk st. unfold bind. specialize (Hm st).
  destruct (m st) as [[a st']|e|]; [apply Hk|congruence|done].
Qed.

Lemma no_range_error_printf f a : no_range_error (printf f a).
Proof. by intros st. Qed.

Lemma no_range_error_vec_get {A} (l : list A) i : no_range_error (vec_get l i).
Proof. intros st. unfold vec_get. by case_match. Qed.

Lemma no_range_error_for_loop {L} i cnt (body : Z → L → M L) l :
  (∀ j l, no_range_error (body j l)) → no_range_error (for_loop i cnt body l).
Proof.
  intros Hbody. revert i l. induction cnt as [|cnt IH]; intros i l; simpl.
  - apply no_range_error_ret.
  - apply no_range_error_bind; [apply Hbody|]. intros l'. apply IH.
Qed.

Lemma gen_uniform_invalid lo hi st :
  gen_uniform lo hi st = Fail InvalidRangeError ↔ hi < lo.
Proof.
  unfold gen_uniform. split.
  - intros Hfail. destruct (decide (hi < lo)) as [|Hle]; [done|].
    destruct (uniform_range lo hi (gen st)) as (x & g' & Hu & _); [lia|].
    by rewrite Hu in Hfail.
  - intros Hlt. by rewrite uniform_invalid.
Qed.

Lemma run_wp seed (m : M unit) (P : list event → Prop) :
  wp m (mkState (Random (to_u64 seed)) []) (λ _ st, P (stdout st)) →
  ∃ log, run seed m = Done log ∧ P log.
Proof.
  intros ([] & st & Hm & HP). exists (stdout st). unfold run. by rewrite Hm.
Qed.

End WpRules.

(** ** A relabelled path is a tree *)

Section RelabelledPath.
Variable n : Z.
Variable p : list Z.
Hypothesis p_perm : p ≡ₚ seqZ 0 n.

Lemma perm_length : Z.of_nat (length p) = Z.max 0 n.
Proof. rewrite p_perm, length_seqZ. lia. Qed.

Lemma perm_NoDup : NoDup p.
Proof. rewrite p_perm. apply NoDup_seqZ. Qed.

Lemma entry_lookup i : 0 ≤ i < n → p !! Z.to_nat i = Some (entry p i).
Proof.
  intros Hi. apply list_lookup_lookup_total_lt.
  pose proof perm_length. lia.
Qed.

Lemma entry_range i : 0 ≤ i < n → 0 ≤ entry p i < n.
Proof.
  intros Hi. pose proof (entry_lookup i Hi) as Hl.
  apply list_elem_of_lookup_2 in Hl.
  generalize dependent (entry p i). intros x Hx.
  rewrite p_perm in Hx. apply elem_of_seqZ in Hx. lia.
Qed.

Lemma entry_inj i j : 0 ≤ i < n → 0 ≤ j < n → entry p i = entry p j → i = j.
Proof.
  intros Hi Hj Heq.
  pose proof (entry_lookup i Hi) as Hli.
  pose proof (entry_lookup j Hj) as Hlj. rewrite <- Heq in Hlj.
  pose proof (NoDup_lookup _ _ _ _ perm_NoDup Hli Hlj). lia.
Qed.

Lemma entry_surj a : 0 ≤ a < n → ∃ i, 0 ≤ i < n ∧ a = entry p i.
Proof.
  intros Ha.
  assert (a ∈ p) as Hin by (rewrite p_perm, elem_of_seqZ; lia).
  apply list_elem_of_lookup in Hin as [k Hk].
  pose proof (lookup_lt_Some _ _ _ Hk). pose proof perm_length.
  exists (Z.of_nat k). split; [lia|].
  unfold entry. rewrite Nat2Z.id. symmetry. by apply list_lookup_total_correct.
Qed.

Lemma inverse_entry i : 0 ≤ i < n → inverse p (entry p i) = i.
Proof.
  intros Hi. unfold inverse.
  pose proof (entry_lookup i Hi) as Hl.
  destruct (list_find (λ y, y = entry p i) p) as [[k y]|] eqn:Hfind.
  - apply list_find_Some in Hfind as (Hk & -> & _).
    pose proof (NoDup_lookup _ _ _ _ perm_NoDup Hl Hk). lia.
  - apply list_find_None in Hfind.
    apply list_elem_of_lookup_2 in Hl.
    rewrite Forall_forall in Hfind. by destruct (Hfind _ Hl).
Qed.

Lemma path_lookup j :
  Z.of_nat j < n - 1 → path n !! j = Some (Z.of_nat j, Z.of_nat j + 1).
Proof.
  intros Hj. unfold path. rewrite list_lookup_fmap, lookup_seqZ_lt by done.
  simpl. by rewrite Z.add_0_l.
Qed.

Lemma path_lookup_Some j a b :
  path n !! j = Some (a, b) → a = Z.of_nat j ∧ b = Z.of_nat j + 1 ∧ Z.of_nat j < n - 1.
Proof.
  unfold path. rewrite list_lookup_fmap. intros Hl.
  destruct (seqZ 0 (n - 1) !! j) as [x|] eqn:Hx; [|done].
  apply lookup_seqZ in Hx as [-> Hj]. simpl in Hl. injection Hl as <- <-. lia.
Qed.

Lemma relabel_lookup_Some j a b :
  relabel (entry p) (path n) !! j = Some (a, b) →
  a = entry p (Z.of_nat j) ∧ b = entry p (Z.of_nat j + 1) ∧ Z.of_nat j < n - 1.
Proof.
  unfold relabel. rewrite list_lookup_fmap. intros Hl.
  destruct (path n !! j) as [[x y]|] eqn:Hxy; [|done].
  apply path_lookup_Some in Hxy as (-> & -> & Hj).
  simpl in Hl. by injection Hl as <- <-.
Qed.

Lemma relabel_lookup j :
  Z.of_nat j < n - 1 →
  relabel (entry p) (path n) !! j
  = Some (entry p (Z.of_nat j), entry p (Z.of_nat j + 1)).
Proof.
  intros Hj. unfold relabel. by rewrite list_lookup_fmap, path_lookup.
Qed.

Lemma relabel_length : Z.of_nat (length (relabel (entry p) (path n))) = Z.max 0 (n - 1).
Proof. unfold relabel, path. rewrite !length_fmap, length_seqZ. lia. Qed.

Lemma relabel_endpoints a b :
  (a, b) ∈ relabel (entry p) (path n) → 0 ≤ a < n ∧ 0 ≤ b < n.
Proof.
  intros Hin. apply list_elem_of_lookup in Hin as [j Hj].
  apply relabel_lookup_Some in Hj as (-> & -> & Hj).
  split; apply entry_range; lia.
Qed.

(** Undoing the relabelling gives the path back, edge by edge. *)
Lemma relabel_inverse :
  relabel (inverse p) (relabel (entry p) (path n)) = path n.
Proof.
  apply list_eq; intros j. unfold relabel at 1. rewrite list_lookup_fmap.
  destruct (decide (Z.of_nat j < n - 1)) as [Hj|Hj].
  - rewrite relabel_lookup, path_lookup by done. simpl.
    by rewrite !inverse_entry by lia.
  - pose proof relabel_length.
    rewrite lookup_ge_None_2 by lia.
    symmetry. apply lookup_ge_None_2. unfold path.
    rewrite length_fmap, length_seqZ. lia.
Qed.

Lemma adjacent_step i :
  0 ≤ i < n - 1 →
  adjacent (relabel (entry p) (path n)) (entry p i) (entry p (i + 1)).
Proof.
  intros Hi. left. apply list_elem_of_lookup. exists (Z.to_nat i).
  rewrite relabel_lookup by lia. by rewrite Z2Nat.id by lia.
Qed.

Lemma adjacent_sym E a b : adjacent E a b → adjacent E b a.
Proof. unfold adjacent. tauto. Qed.

Lemma connected_up i (k : nat) :
  0 ≤ i → i + Z.of_nat k < n →
  rtc (adjacent (relabel (entry p) (path n))) (entry p i) (entry p (i + Z.of_nat k))
  ∧ rtc (adjacent (relabel (entry p) (path n))) (entry p (i + Z.of_nat k)) (entry p i).
Proof.
  intros Hi. induction k as [|k IH]; intros Hk.
  - replace (i + Z.of_nat 0) with i by lia. done.
  - destruct IH as [IH1 IH2]; [lia|].
    replace (i + Z.of_nat (S k)) with (i + Z.of_nat k + 1) by lia.
    pose proof (adjacent_step (i + Z.of_nat k)) as Hstep.
    split.
    + eapply rtc_r; [done|]. apply Hstep. lia.
    + eapply rtc_l; [|done]. apply adjacent_sym, Hstep. lia.
Qed.

Lemma relabel_connected : connected n (relabel (entry p) (path n)).
Proof.
  intros a b Ha Hb.
  destruct (entry_surj a Ha) as (i & Hi & ->).
  destruct (entry_surj b Hb) as (j & Hj & ->).
  destruct (decide (i ≤ j)).
  - replace j with (i + Z.of_nat (Z.to_nat (j - i))) by lia.
    apply connected_up; lia.
  - replace i with (j + Z.of_nat (Z.to_nat (i - j))) by lia.
    apply connected_up; lia.
Qed.

(** On the path, a walk that never takes an edge twice keeps its
    direction. *)
Lemma path_walk_up a js c :
  walk (path n) a js c → NoDup js →
  (∀ j, j ∈ js → Z.of_nat j ≠ a - 1) →
  c = a + Z.of_nat (length js).
Proof.
  induction 1 as [a|a b c j js Hj Hw IH]; intros Hnd Hne; simpl; [lia|].
  apply NoDup_cons in Hnd as [Hnotin Hnd].
  destruct Hj as [Hj|Hj]; apply path_lookup_Some in Hj as (Ha & Hb & _).
  - rewrite IH; [lia|done|].
    intros j' Hj' Heq. apply Hnotin.
    by replace j with j' by lia.
  - destruct (Hne j); [left|lia].
Qed.

Lemma path_walk_down a js c :
  walk (path n) a js c → NoDup js →
  (∀ j, j ∈ js → Z.of_nat j ≠ a) →
  c = a - Z.of_nat (length js).
Proof.
  induction 1 as [a|a b c j js Hj Hw IH]; intros Hnd Hne; simpl; [lia|].
  apply NoDup_cons in Hnd as [Hnotin Hnd].
  destruct Hj as [Hj|Hj]; apply path_lookup_Some in Hj as (Ha & Hb & _).
  - destruct (Hne j); [left|lia].
  - rewrite IH; [lia|done|].
    intros j' Hj' Heq. apply Hnotin.
    by replace j with j' by lia.
Qed.

Lemma path_acyclic : acyclic (path n).
Proof.
  intros a js Hw Hnd. destruct js as [|j js]; [done|exfalso].
  inversion Hw as [|a' b c' j' js' Hj Hw']; subst.
  apply NoDup_cons in Hnd as [Hnotin Hnd].
  destruct Hj as [Hj|Hj]; apply path_lookup_Some in Hj as (Ha & Hb & _).
  - apply path_walk_up in Hw'; [lia|done|].
    intros j' Hj' Heq. apply Hnotin. by replace j with j' by lia.
  - apply path_walk_down in Hw'; [lia|done|].
    intros j' Hj' Heq. apply Hnotin. by replace j with j' by lia.
Qed.

(** A walk in the relabelled graph is a walk on the path. *)
Lemma relabel_walk a js c :
  walk (relabel (entry p) (path n)) a js c →
  ∀ i, 0 ≤ i < n → a = entry p i →
  ∃ i', 0 ≤ i' < n ∧ c = entry p i' ∧ walk (path n) i js i'.
Proof.
  induction 1 as [a|a b c j js Hj Hw IH]; intros i Hi Ha.
  - exists i. split_and!; [lia|lia|done|constructor].
  - destruct Hj as [Hj|Hj]; apply relabel_lookup_Some in Hj as (Ha' & Hb' & Hlt).
    + assert (i = Z.of_nat j) as -> by (apply entry_inj; [lia..|congruence]).
      destruct (IH (Z.of_nat j + 1)) as (i' & Hi' & Hc & Hw'); [lia|done|].
      exists i'. split_and!; [lia|lia|done|].
      econstructor; [|done]. left. by apply path_lookup.
    + assert (i = Z.of_nat j + 1) as -> by (apply entry_inj; [lia..|congruence]).
      destruct (IH (Z.of_nat j)) as (i' & Hi' & Hc & Hw'); [lia|done|].
      exists i'. split_and!; [lia|lia|done|].
      econstructor; [|done]. right. by apply path_lookup.
Qed.

Lemma relabel_acyclic : acyclic (relabel (entry p) (path n)).
Proof.
  intros a js Hw Hnd. destruct js as [|j js]; [done|exfalso].
  assert (∃ i, 0 ≤ i < n ∧ a = entry p i) as (i & Hi & Ha).
  { inversion Hw as [|a' b c' j' js' Hj Hw']; subst.
    destruct Hj as [Hj|Hj]; apply relabel_lookup_Some in Hj as (Ha' & Hb' & Hlt).
    - exists (Z.of_nat j). split; [lia|done].
    - exists (Z.of_nat j + 1). split; [lia|done]. }
  destruct (relabel_walk _ _ _ Hw i Hi Ha) as (i' & Hi' & Ha' & Hw').
  assert (i' = i) as -> by (apply entry_inj; [lia..|congruence]).
  by pose proof (path_acyclic _ _ Hw' Hnd).
Qed.

Lemma relabel_is_tree : 1 ≤ n → is_tree n (relabel (entry p) (path n)).
Proof.
  intros Hn. split_and!.
  - rewrite relabel_length. lia.
  - apply relabel_endpoints.
  - apply relabel_connected.
  - apply relabel_acyclic.
Qed.

End RelabelledPath.

(** ** What is printed determines the instance and the pairs *)

Lemma value_events_inj n i vals1 vals2 rest1 rest2 :
  value_events n i vals1 ++ Printf "\n" [] :: rest1
  = value_events n i vals2 ++ Printf "\n" [] :: rest2 →
  vals1 = vals2 ∧ rest1 = rest2.
Proof.
  revert i vals2. induction vals1 as [|x vals1 IH]; intros i [|y vals2]; simpl.
  - by intros [= ->].
  - done.
  - done.
  - intros [= <- Heq]. case_decide.
    + simpl in Heq. injection Heq as Heq.
      destruct (IH _ _ Heq) as [-> ->]. done.
    + simpl in Heq. destruct (IH _ _ Heq) as [-> ->]. done.
Qed.

Lemma query_events_inj qs1 qs2 :
  qs1 ≫= query_events = qs2 ≫= query_events → qs1 = qs2.
Proof.
  revert qs2. induction qs1 as [|q1 qs1 IH]; intros [|q2 qs2]; simpl.
  - done.
  - by destruct q2.
  - by destruct q1.
  - destruct q1, q2; simpl; intros [=]; subst; f_equal; by apply IH.
Qed.

Lemma edge_events_inj E1 E2 qs1 qs2 :
  (edge_event <$> E1) ++ (qs1 ≫= query_events)
  = (edge_event <$> E2) ++ (qs2 ≫= query_events) →
  E1 = E2 ∧ qs1 = qs2.
Proof.
  revert E2. induction E1 as [|[a1 b1] E1 IH]; intros [|[a2 b2] E2]; simpl.
  - intros Heq. split; [done|]. by apply query_events_inj.
  - destruct qs1 as [|[] qs1]; done.
  - destruct qs2 as [|[] qs2]; done.
  - intros [= <- <- Heq]. destruct (IH _ Heq) as [-> ->]. done.
Qed.

Lemma tree_layout_inj n q inst1 inst2 :
  tree_layout n q inst1 = tree_layout n q inst2 → inst1 = inst2.
Proof.
  destruct inst1 as [vals1 E1 qs1], inst2 as [vals2 E2 qs2].
  unfold tree_layout. simpl. intros [= Heq].
  apply value_events_inj in Heq as [-> Heq].
  apply edge_events_inj in Heq as [-> ->]. done.
Qed.

Lemma pairs_layout_inj ps1 ps2 : pairs_layout ps1 = pairs_layout ps2 → ps1 = ps2.
Proof.
  unfold pairs_layout. intros [= _ Heq]. revert ps2 Heq.
  induction ps1 as [|[a1 b1] ps1 IH]; intros [|[a2 b2] ps2]; simpl; [done..|].
  intros [= <- <- Heq]. f_equal. by apply IH.
Qed.

(** ** The run of [line.cpp] *)

Lemma value_events_snoc n i vals x :
  value_events n i (vals ++ [x])
  = value_events n i vals
      ++ Printf "%d" [Int x]
      :: (if decide (i + Z.of_nat (length vals) ≠ n - 1) then [Printf " " []] else []).
Proof.
  revert i. induction vals as [|y vals IH]; intros i; simpl.
  - rewrite app_nil_r. by replace (i + Z.of_nat 0) with i by lia.
  - rewrite IH.
    replace (i + 1 + Z.of_nat (length vals)) with (i + Z.of_nat (S (length vals))) by lia.
    by rewrite <- app_assoc.
Qed.

Section LineRun.
Context {RS : RandomSource} {RL : RandomLaws RS}.
Variables N_AND_Q_MAX A_AND_X_MAX : Z.
Hypothesis N_valid : 1 ≤ N_AND_Q_MAX ≤ INT_MAX.
Hypothesis A_valid : 0 ≤ A_AND_X_MAX ≤ INT_MAX.

Local Abbreviation n := N_AND_Q_MAX.
Local Abbreviation A := A_AND_X_MAX.

Lemma line_values_wp st :
  wp (for_ n (λ i _,
        x ← gen_uniform 0 A;
        printf "%d" [Int x];;
        if decide (i ≠ n - 1) then printf " " [] else ret tt) tt) st
     (λ _ st', ∃ vals,
        Z.of_nat (length vals) = n ∧ Forall (λ x, 0 ≤ x ≤ A) vals
        ∧ stdout st' = stdout st ++ value_events n 0 vals).
Proof.
  eapply wp_mono.
  - apply (wp_for (λ j _ st', ∃ vals,
        Z.of_nat (length vals) = j ∧ Forall (λ x, 0 ≤ x ≤ A) vals
        ∧ stdout st' = stdout st ++ value_events n 0 vals)); [lia| |].
    + exists []. simpl. by rewrite app_nil_r.
    + intros j [] st' Hj (vals & Hlen & Hvals & Hout).
      apply wp_bind, wp_uniform; [lia|]. intros x g' Hx.
      apply wp_bind, wp_printf.
      assert (Forall (λ x, 0 ≤ x ≤ A) (vals ++ [x])) as Hvals'.
      { apply Forall_app; split; [done|]. by apply Forall_singleton. }
      assert (Z.of_nat (length (vals ++ [x])) = j + 1) as Hlen'.
      { rewrite length_app. simpl. lia. }
      case_decide.
      * apply wp_printf. exists (vals ++ [x]). split_and!; [done..|].
        simpl. rewrite Hout, value_events_snoc, Hlen.
        rewrite decide_True by lia.
        by rewrite <- !app_assoc.
      * apply wp_ret. exists (vals ++ [x]). split_and!; [done..|].
        simpl. rewrite Hout, value_events_snoc, Hlen.
        rewrite decide_False by lia.
        by rewrite <- !app_assoc.
  - done.
Qed.

Lemma line_init_wp st :
  wp (for_ (n - 1) (λ i '(u, v),
        u ← vec_set u i i;
        v ← vec_set v i (int_add i 1);
        ret (u, v))
        (replicate (Z.to_nat (n - 1)) 0, replicate (Z.to_nat (n - 1)) 0)) st
     (λ uv st', st' = st ∧ uv = (seqZ 0 (n - 1), seqZ 1 (n - 1))).
Proof.
  eapply wp_mono.
  - apply (wp_for (λ j uv st',
        st' = st ∧ length uv.1 = Z.to_nat (n - 1) ∧ length uv.2 = Z.to_nat (n - 1)
        ∧ ∀ k, Z.of_nat k < j →
            uv.1 !! k = Some (Z.of_nat k) ∧ uv.2 !! k = Some (Z.of_nat k + 1)));
      [lia| |].
    + simpl. rewrite !length_replicate. split_and!; [done..|]. lia.
    + intros j [u v] st' Hj (-> & Hu & Hv & Hlook). simpl in *.
      apply wp_bind, wp_vec_set; [lia..|].
      apply wp_bind, wp_vec_set; [lia..|].
      apply wp_ret. simpl. rewrite !length_insert. split_and!; [done..|].
      intros k Hk. rewrite int_add_id by int_lia.
      destruct (decide (k = Z.to_nat j)) as [->|Hne].
      * rewrite !list_lookup_insert_eq by lia.
        split; f_equal; lia.
      * rewrite !list_lookup_insert_ne by done. apply Hlook. lia.
  - intros [u v] st' (-> & Hu & Hv & Hlook). simpl in *. split; [done|].
    f_equal; apply list_eq; intros k.
    + destruct (decide (Z.of_nat k < n - 1)) as [Hk|Hk].
      * rewrite lookup_seqZ_lt by done. by apply Hlook.
      * rewrite lookup_seqZ_ge by lia. apply lookup_ge_None. lia.
    + destruct (decide (Z.of_nat k < n - 1)) as [Hk|Hk].
      * rewrite lookup_seqZ_lt by done. rewrite Z.add_comm. by apply Hlook.
      * rewrite lookup_seqZ_ge by lia. apply lookup_ge_None. lia.
Qed.

Lemma line_relabel_wp (p : list Z) st :
  p ≡ₚ seqZ 0 n →
  wp (for_ (n - 1) (λ i '(u, v),
        ui ← vec_get u i;
        pu ← vec_get p ui;
        u ← vec_set u i pu;
        vi ← vec_get v i;
        pv ← vec_get p vi;
        v ← vec_set v i pv;
        ret (u, v)) (seqZ 0 (n - 1), seqZ 1 (n - 1))) st
     (λ uv st', st' = st ∧ zip uv.1 uv.2 = relabel (entry p) (path n)).
Proof.
  intros Hp.
  eapply wp_mono.
  - apply (wp_for (λ j uv st',
        st' = st ∧ length uv.1 = Z.to_nat (n - 1) ∧ length uv.2 = Z.to_nat (n - 1)
        ∧ ∀ k, Z.of_nat k < n - 1 →
            uv.1 !! k = Some (if decide (Z.of_nat k < j)
                              then entry p (Z.of_nat k) else Z.of_nat k)
            ∧ uv.2 !! k = Some (if decide (Z.of_nat k < j)
                                then entry p (Z.of_nat k + 1) else Z.of_nat k + 1)));
      [lia| |].
    + simpl. rewrite !length_seqZ. split_and!; [done..|].
      intros k Hk. rewrite !decide_False by lia.
      rewrite !lookup_seqZ_lt by done. split; f_equal; lia.
    + intros j [u v] st' Hj (-> & Hu & Hv & Hlook). simpl in *.
      destruct (Hlook (Z.to_nat j)) as [Huj Hvj]; [lia|].
      rewrite !decide_False in Huj, Hvj by lia. rewrite Z2Nat.id in Huj, Hvj by lia.
      pose proof (entry_lookup n p Hp j) as Hpj.
      pose proof (entry_lookup n p Hp (j + 1)) as Hpj1.
      eapply wp_bind, wp_vec_get; [lia|done|].
      eapply wp_bind, wp_vec_get; [lia|apply Hpj; lia|].
      apply wp_bind, wp_vec_set; [lia..|].
      eapply wp_bind, wp_vec_get; [lia|done|].
      eapply wp_bind, wp_vec_get; [lia|apply Hpj1; lia|].
      apply wp_bind, wp_vec_set; [lia..|].
      apply wp_ret. simpl. rewrite !length_insert. split_and!; [done..|].
      intros k Hk.
      destruct (decide (k = Z.to_nat j)) as [->|Hne].
      * rewrite !list_lookup_insert_eq by lia.
        rewrite !decide_True by lia. rewrite Z2Nat.id by lia. done.
      * rewrite !list_lookup_insert_ne by done.
        destruct (Hlook k Hk) as [-> ->].
        split; f_equal; repeat case_decide; done || lia.
  - intros [u v] st' (-> & Hu & Hv & Hlook). simpl in *. split; [done|].
    apply list_eq; intros k. unfold relabel, path.
    rewrite lookup_zip_with, !list_lookup_fmap.
    destruct (decide (Z.of_nat k < n - 1)) as [Hk|Hk].
    + destruct (Hlook k Hk) as [-> ->]. rewrite !decide_True by done.
      rewrite lookup_seqZ_lt by done. simpl. by rewrite Z.add_0_l.
    + rewrite lookup_seqZ_ge by lia.
      rewrite (lookup_ge_None_2 u) by lia. done.
Qed.

Lemma line_edges_wp (E : list (Z * Z)) (u v : list Z) st :
  zip u v = E → Z.of_nat (length E) = n - 1 →
  wp (for_ (n - 1) (λ i _,
        ui ← vec_get u i;
        vi ← vec_get v i;
        printf "%d %d\n" [Int ui; Int vi]) tt) st
     (λ _ st', stdout st' = stdout st ++ (edge_event <$> E)).
Proof.
  intros HE Hlen.
  eapply wp_mono.
  - apply (wp_for (λ j _ st',
        stdout st' = stdout st ++ (edge_event <$> take (Z.to_nat j) E))); [lia| |].
    + simpl. by rewrite app_nil_r.
    + intros j [] st' Hj Hout.
      destruct (lookup_lt_is_Some_2 E (Z.to_nat j)) as [[a b] Hab]; [lia|].
      pose proof Hab as Hzip. rewrite <- HE in Hzip.
      apply lookup_zip_with_Some in Hzip as (a' & b' & [= <- <-] & Ha & Hb).
      eapply wp_bind, wp_vec_get; [lia|done|].
      eapply wp_bind, wp_vec_get; [lia|done|].
      apply wp_printf. simpl.
      replace (Z.to_nat (j + 1)) with (S (Z.to_nat j)) by lia.
      rewrite (take_S_r _ _ _ Hab), fmap_app, Hout. by rewrite <- app_assoc.
  - intros [] st' Hout. simpl in Hout. by rewrite Hout, take_ge by lia.
Qed.

Lemma line_queries_wp st :
  wp (for_ n (λ i _,
        t ← gen_uniform 0 1;
        printf "%d " [Int t];;
        if decide (t = 0) then
          p ← gen_uniform 0 (n - 1);
          x ← gen_uniform 0 A;
          printf "%d %d\n" [Int p; Int x]
        else
          u ← gen_uniform 0 (n - 1);
          v ← gen_uniform 0 (n - 1);
          printf "%d %d\n" [Int u; Int v]) tt) st
     (λ _ st', ∃ qs,
        Z.of_nat (length qs) = n ∧ Forall (query_in_range n A) qs
        ∧ stdout st' = stdout st ++ (qs ≫= query_events)).
Proof.
  eapply wp_mono.
  - apply (wp_for (λ j _ st', ∃ qs,
        Z.of_nat (length qs) = j ∧ Forall (query_in_range n A) qs
        ∧ stdout st' = stdout st ++ (qs ≫= query_events))); [lia| |].
    + exists []. simpl. by rewrite app_nil_r.
    + intros j [] st' Hj (qs & Hlen & Hqs & Hout).
      assert (∀ q, query_in_range n A q →
        Z.of_nat (length (qs ++ [q])) = j + 1
        ∧ Forall (query_in_range n A) (qs ++ [q])) as Hsnoc.
      { intros q Hq. rewrite length_app, Forall_app, Forall_singleton.
        simpl. split; [lia|done]. }
      apply wp_bind, wp_uniform; [lia|]. intros t g1 Ht.
      apply wp_bind, wp_printf. case_decide as Ht0.
      * apply wp_bind, wp_uniform; [lia|]. intros p g2 Hp.
        apply wp_bind, wp_uniform; [lia|]. intros x g3 Hx.
        apply wp_printf. exists (qs ++ [Update p x]).
        destruct (Hsnoc (Update p x)) as [? ?]; [simpl; lia|].
        split_and!; [done..|]. simpl.
        rewrite bind_app, Hout, Ht0. simpl. by rewrite <- !app_assoc.
      * apply wp_bind, wp_uniform; [lia|]. intros u g2 Hu.
        apply wp_bind, wp_uniform; [lia|]. intros v g3 Hv.
        apply wp_printf. exists (qs ++ [PathSum u v]).
        destruct (Hsnoc (PathSum u v)) as [? ?]; [simpl; lia|].
        split_and!; [done..|]. simpl.
        rewrite bind_app, Hout. replace t with 1 by lia.
        simpl. by rewrite <- !app_assoc.
  - done.
Qed.

(** What a run of [line.cpp] prints, for every seed: the instance, with
    the drawn permutation [p]. *)
Lemma line_main_layout seed :
  ∃ log, Line.main n A seed = Done log ∧ ∃ inst p,
    log = tree_layout n n inst
    ∧ Z.of_nat (length (values inst)) = n
    ∧ Forall (λ x, 0 ≤ x ≤ A) (values inst)
    ∧ (∃ g, p = (perm n g).1)
    ∧ p ≡ₚ seqZ 0 n
    ∧ edges inst = relabel (entry p) (path n)
    ∧ Z.of_nat (length (queries inst)) = n
    ∧ Forall (query_in_range n A) (queries inst).
Proof.
  assert (is_int n ∧ is_int A ∧ is_int (n - 1)) as (Hn & HA & Hn1).
  { int_lia. }
  unfold Line.main. cbv zeta.
  rewrite !(to_int_id n), !(to_int_id A), !(int_sub_id n 1) by done.
  apply run_wp.
  apply wp_bind, wp_printf.
  apply wp_bind. eapply wp_mono; [apply line_values_wp|].
  intros [] st1 (vals & Hlen & Hvals & Hout1). simpl in Hout1.
  apply wp_bind, wp_printf.
  apply wp_bind, wp_vector_new; [lia|].
  apply wp_bind, wp_vector_new; [lia|].
  apply wp_bind. eapply wp_mono; [apply line_init_wp|].
  intros uv st2 [-> ->].
  apply wp_bind, wp_perm; [lia|]. intros p g' Hdraw Hp.
  apply wp_bind. eapply wp_mono; [by apply line_relabel_wp|].
  intros [u v] st3 [-> Hzip]. simpl in Hzip.
  assert (Z.of_nat (length (relabel (entry p) (path n))) = n - 1) as HlenE.
  { unfold relabel, path. rewrite !length_fmap, length_seqZ. lia. }
  apply wp_bind. eapply wp_mono; [by apply (line_edges_wp _ u v _ Hzip)|].
  intros [] st4 Hout4. simpl in Hout4.
  eapply wp_mono; [apply line_queries_wp|].
  intros [] st5 (qs & Hlenq & Hqs & Hout5).
  exists (mkInstance vals (relabel (entry p) (path n)) qs), p.
  split_and!; [|done|done| |done..].
  - rewrite Hout5, Hout4, Hout1. unfold tree_layout. simpl.
    by rewrite <- !app_assoc.
  - eexists. by rewrite <- Hdraw.
Qed.

End LineRun.


(** ** Strings of digits *)

Lemma size_push_back s c : size (push_back s c) = size s + 1.
Proof.
  unfold size, push_back. induction s as [|c' s IH]; simpl in *; lia.
Qed.

Lemma first_char_push_back s c :
  first_char (push_back s c) = if decide (size s = 0) then Some c else first_char s.
Proof.
  destruct s as [|c' s]; [done|].
  rewrite decide_False; [done|]. unfold size. simpl. lia.
Qed.

Lemma digit_char_zero d :
  0 ≤ d ≤ 9 → to_char (int_add 48 d) = "0"%char → d = 0.
Proof.
  intros Hd.
  assert (d = 0 ∨ d = 1 ∨ d = 2 ∨ d = 3 ∨ d = 4 ∨ d = 5 ∨ d = 6
          ∨ d = 7 ∨ d = 8 ∨ d = 9) as Hcases by lia.
  destruct_or! Hcases; subst d; vm_compute; done.
Qed.

(** ** The run of [medium.cpp] *)

Section MediumRun.
Context {RS : RandomSource} {RL : RandomLaws RS}.
Variable SUM_OF_CHARACTER_LENGTH : Z.

Local Abbreviation SUM := SUM_OF_CHARACTER_LENGTH.

Lemma medium_digits_a_wp alen st :
  0 ≤ alen →
  wp (Medium.digits_a alen) st (λ s st',
    stdout st' = stdout st ∧ size s = alen
    ∧ (first_char s = Some "0"%char → alen = 1)).
Proof.
  intros Halen. unfold Medium.digits_a. eapply wp_mono.
  - apply (wp_for (λ j s st',
      stdout st' = stdout st ∧ size s = j
      ∧ (first_char s = Some "0"%char → alen = 1))); [lia|by split_and!|].
    intros j s st' Hj (Hout & Hsize & Hfirst). cbv zeta.
    apply wp_bind, wp_uniform; [case_decide; lia|]. intros d g' Hd.
    apply wp_ret. simpl. split_and!; [done|by rewrite size_push_back, Hsize|].
    rewrite first_char_push_back.
    destruct (decide (size s = 0)) as [Hs|Hs]; [|by auto].
    intros [= Hc]. apply digit_char_zero in Hc; [|case_decide; lia].
    subst d. case_decide; lia.
  - done.
Qed.

Lemma medium_digits_b_wp blen st :
  0 ≤ blen →
  wp (Medium.digits_b blen) st (λ s st',
    stdout st' = stdout st ∧ size s = blen
    ∧ first_char s ≠ Some "0"%char).
Proof.
  intros Hblen. unfold Medium.digits_b. eapply wp_mono.
  - apply (wp_for (λ j s st',
      stdout st' = stdout st ∧ size s = j
      ∧ first_char s ≠ Some "0"%char)); [lia|by split_and!|].
    intros j s st' Hj (Hout & Hsize & Hfirst). cbv zeta.
    apply wp_bind, wp_uniform; [case_decide; lia|]. intros d g' Hd.
    apply wp_ret. simpl. split_and!; [done|by rewrite size_push_back, Hsize|].
    rewrite first_char_push_back.
    destruct (decide (size s = 0)) as [Hs|Hs]; [|by auto].
    intros [= Hc]. apply digit_char_zero in Hc; [|case_decide; lia].
    subst d. case_decide; lia.
  - done.
Qed.

(** One turn of the loop: a well-formed candidate is drawn; it is
    appended when the new total is within the budget, and the loop is left
    with [A] and [B] as they were otherwise. *)
Lemma medium_body_wp upper A B lsum st :
  1 ≤ upper →
  wp (Medium.body SUM upper (A, B, lsum)) st (λ r st',
    stdout st' = stdout st ∧ ∃ sa sb,
      well_formed_pair (sa, sb) ∧ size sa ≤ upper ∧ size sb ≤ upper
      ∧ r = if decide (next_lsum lsum sa sb > SUM)
            then inr (A, B, next_lsum lsum sa sb)
            else inl (A ++ [sa], B ++ [sb], next_lsum lsum sa sb)).
Proof.
  intros Hupper. unfold Medium.body.
  apply wp_bind, wp_uniform; [done|]. intros alen g1 Halen.
  apply wp_bind, wp_uniform; [done|]. intros blen g2 Hblen.
  apply wp_bind, wp_uniform; [done|]. intros c g3 Hc.
  set (ab := if decide (c ≠ 0) then
               if decide (alen < blen) then (blen, alen) else (alen, blen)
             else (alen, blen)).
  assert (1 ≤ ab.1 ≤ upper ∧ 1 ≤ ab.2 ≤ upper) as [Ha Hb].
  { unfold ab. repeat case_decide; simpl; lia. }
  destruct ab as [alen' blen']. simpl in Ha, Hb.
  apply wp_bind. eapply wp_mono; [apply medium_digits_a_wp; lia|].
  intros sa st1 (Hout1 & Hsa & Hfa).
  apply wp_bind. eapply wp_mono; [apply medium_digits_b_wp; lia|].
  intros sb st2 (Hout2 & Hsb & Hfb).
  cbv zeta. fold (next_lsum lsum sa sb).
  assert (stdout st2 = stdout st) as Hout by (by rewrite Hout2, Hout1).
  assert (well_formed_pair (sa, sb)) as Hwf.
  { unfold well_formed_pair. simpl. split_and!; [lia| |lia|done].
    intros Hz. rewrite Hsa. by apply Hfa. }
  case_decide; apply wp_ret; (split; [done|]); exists sa, sb;
    (split_and!; [done|lia|lia|]).
  - by rewrite decide_True.
  - by rewrite decide_False.
Qed.

Lemma total_snoc ps ab : total (ps ++ [ab]) = total ps + size ab.1 + size ab.2.
Proof. unfold total. induction ps as [|x ps IH]; simpl in *; lia. Qed.

Lemma total_nonneg ps : 0 ≤ total ps.
Proof. unfold total, size. induction ps as [|ab ps IH]; simpl; lia. Qed.

Lemma total_count ps :
  Forall well_formed_pair ps → 2 * Z.of_nat (length ps) ≤ total ps.
Proof.
  induction 1 as [|ab ps (Ha & _ & Hb & _) _ IH]; simpl in *; lia.
Qed.

Lemma next_lsum_exact upper lsum sa sb :
  valid_budget SUM → upper ≤ TIER_MAX → 0 ≤ lsum ≤ SUM →
  0 ≤ size sa ≤ upper → 0 ≤ size sb ≤ upper →
  next_lsum lsum sa sb = lsum + size sa + size sb.
Proof.
  unfold valid_budget, TIER_MAX, INT_MAX. intros [H0 Hmax] Hupper Hlsum Ha Hb.
  unfold next_lsum.
  rewrite (to_u64_id lsum), (to_u64_id (size sa + size sb)) by lia.
  rewrite to_u64_id, to_int_id; unfold is_int, INT_MIN, INT_MAX; lia.
Qed.

Lemma medium_body_inv upper st0 l st :
  valid_budget SUM → 1 ≤ upper ≤ TIER_MAX →
  loop_inv SUM st0 l st →
  wp (Medium.body SUM upper l) st (λ r st',
    match r with
    | inl l' => loop_inv SUM st0 l' st' ∧ (loop_measure SUM l' < loop_measure SUM l)%nat
    | inr l' => loop_post SUM st0 l' st'
    end).
Proof.
  intros Hvalid Hupper Hinv. destruct l as [[A B] lsum].
  destruct Hinv as (Hout & Hlen & Hwf & Hlsum & Hle).
  eapply wp_mono; [apply medium_body_wp; lia|].
  intros r st' (Hout' & sa & sb & Hab & Hsa & Hsb & ->).
  pose proof Hab as (Ha1 & _ & Hb1 & _). simpl in Ha1, Hb1.
  pose proof (total_count _ Hwf) as Hcount.
  rewrite (next_lsum_exact upper) by (done || lia).
  case_decide as Hcmp.
  - red. split_and!; [congruence|done|done|lia|].
    exists sa, sb. split_and!; [done|lia|lia].
  - split.
    + red. rewrite zip_with_app by done. simpl. rewrite total_snoc. simpl.
      split_and!; [congruence|by rewrite !length_app, Hlen| |lia|lia].
      apply Forall_app. split; [done|]. by apply Forall_singleton.
    + unfold loop_measure. simpl.
      apply Z2Nat.inj_lt; [apply Z.div_pos; lia..|].
      apply Z.div_lt_upper_bound; [lia|].
      pose proof (Z.mul_div_le (SUM - lsum) 2). 
      pose proof (Z.mod_pos_bound (SUM - lsum) 2).
      pose proof (Z.div_mod (SUM - lsum) 2). lia.
Qed.

Lemma loop_inv_init st : valid_budget SUM → loop_inv SUM st ([], [], 0) st.
Proof. intros [? ?]. red. simpl. split_and!; [done|done|constructor|done|done]. Qed.

(** Whatever the fuel, a finished loop leaves accepted pairs within the
    budget, and a candidate that went over it. *)
Lemma medium_generate_done fuel upper st l st' :
  valid_budget SUM → 1 ≤ upper ≤ TIER_MAX →
  Medium.generate SUM fuel upper st = Done (l, st') →
  loop_post SUM st l st'.
Proof.
  intros Hvalid Hupper. unfold Medium.generate.
  apply (while_true_done (loop_inv SUM st) (loop_post SUM st)); [|by apply loop_inv_init].
  intros l0 st0 Hinv. eapply wp_mono; [by apply medium_body_inv|].
  intros [l1|l1] st1; tauto.
Qed.

(** The loop ends within [SUM / 2 + 1] turns. *)
Lemma medium_generate_wp fuel upper st :
  valid_budget SUM → 1 ≤ upper ≤ TIER_MAX →
  (Z.to_nat (SUM `div` 2) < fuel)%nat →
  wp (Medium.generate SUM fuel upper) st (loop_post SUM st).
Proof.
  intros Hvalid Hupper Hfuel. unfold Medium.generate.
  apply (wp_while_true (loop_inv SUM st) (loop_post SUM st) (loop_measure SUM)).
  - intros l0 st0 Hinv. by apply medium_body_inv.
  - by apply loop_inv_init.
  - unfold loop_measure. simpl. by rewrite Z.sub_0_r.
Qed.

(** The tier: one of the three entries when [seed % 3] is not negative, an
    access outside the table when it is. *)
Lemma medium_tier seed st :
  (0 ≤ seed `rem` 3 ∧ ∃ upper, Medium.tier seed st = Done (upper, st)
     ∧ [10; 300; 10000] !! Z.to_nat (seed `rem` 3) = Some upper)
  ∨ (seed `rem` 3 < 0 ∧ Medium.tier seed st = Fail OutOfBounds).
Proof.
  pose proof (Z.rem_bound_abs seed 3) as Hbound. unfold Medium.tier.
  assert (seed `rem` 3 = -2 ∨ seed `rem` 3 = -1 ∨ seed `rem` 3 = 0
          ∨ seed `rem` 3 = 1 ∨ seed `rem` 3 = 2) as Hr by lia.
  destruct_or! Hr; rewrite Hr.
  - right. split; [lia|done].
  - right. split; [lia|done].
  - left. split; [lia|]. by exists 10.
  - left. split; [lia|]. by exists 300.
  - left. split; [lia|]. by exists 10000.
Qed.

Lemma medium_tier_range seed st upper st' :
  Medium.tier seed st = Done (upper, st') →
  st' = st ∧ 1 ≤ upper ≤ TIER_MAX ∧ 0 ≤ seed `rem` 3.
Proof.
  intros Htier.
  destruct (medium_tier seed st) as [(Hrem & u & Hu & Hl)|[_ Hfail]]; [|congruence].
  rewrite Hu in Htier. injection Htier as -> ->.
  split; [done|split; [|done]].
  apply list_elem_of_lookup_2 in Hl. unfold TIER_MAX.
  rewrite !elem_of_cons, elem_of_nil in Hl. lia.
Qed.

Lemma medium_print_wp (A B : list string) st :
  length A = length B → Z.of_nat (length A) ≤ INT_MAX →
  wp (Medium.print A B) st (λ _ st',
    stdout st' = stdout st ++ pairs_layout (zip A B)).
Proof.
  intros Hlen Hmax. unfold Medium.print.
  assert (length (zip A B) = length A) as HlenAB.
  { rewrite length_zip_with. lia. }
  rewrite to_int_id by int_lia.
  apply wp_bind, wp_printf. eapply wp_mono.
  - apply (wp_for (λ j _ st',
      stdout st' = stdout st ++ Printf "%d\n" [Int (Z.of_nat (length A))]
        :: (pair_event <$> take (Z.to_nat j) (zip A B)))); [lia|done|].
    intros j [] st' Hj Hout.
    destruct (lookup_lt_is_Some_2 (zip A B) (Z.to_nat j)) as [[a b] Hab]; [lia|].
    pose proof Hab as Hzip.
    apply lookup_zip_with_Some in Hzip as (a' & b' & [= <- <-] & Ha & Hb).
    eapply wp_bind, wp_vec_get; [lia|done|].
    eapply wp_bind, wp_vec_get; [lia|done|].
    apply wp_printf. simpl.
    replace (Z.to_nat (j + 1)) with (S (Z.to_nat j)) by lia.
    rewrite (take_S_r _ _ _ Hab), fmap_app, Hout.
    by rewrite <- app_assoc.
  - intros [] st' Hout. simpl in Hout. rewrite Hout, take_ge by lia.
    unfold pairs_layout. by rewrite HlenAB.
Qed.

(** What a finished run of [medium.cpp] prints: the accepted pairs, which
    are well formed and within the budget; a further candidate went over
    the budget and is not among them. *)
Lemma medium_main_layout fuel seed log :
  valid_budget SUM →
  Medium.main SUM fuel seed = Done log →
  ∃ ps,
    log = pairs_layout ps
    ∧ Forall well_formed_pair ps
    ∧ total ps ≤ SUM
    ∧ ∃ sa sb, well_formed_pair (sa, sb) ∧ SUM < total ps + size sa + size sb.
Proof.
  intros Hvalid. unfold Medium.main, run, Medium.program.
  set (st0 := mkState (Random (to_u64 (seed + 12345))) []).
  unfold bind at 1.
  destruct (Medium.tier seed st0) as [[upper st1]| |] eqn:Htier; [|done..].
  apply medium_tier_range in Htier as (-> & Hupper & _).
  unfold bind at 1.
  destruct (Medium.generate SUM fuel upper st0)
    as [[[[A B] lsum] st2]| |] eqn:Hgen; [|done..].
  apply medium_generate_done in Hgen as (Hout & Hlen & Hwf & Hle & Hcand);
    [|done..].
  pose proof (total_count _ Hwf) as Hcount.
  rewrite length_zip_with in Hcount.
  destruct (medium_print_wp A B st2 Hlen) as ([] & st3 & -> & Hout3).
  { int_lia. }
  intros [= <-]. exists (zip A B). split_and!; [|done..|].
  - by rewrite Hout3, Hout.
  - destruct Hcand as (sa & sb & Hab & -> & Hlt). by exists sa, sb.
Qed.

End MediumRun.

(** ** Runs of [line.cpp] that end normally *)

Section LineDone.
Context {RS : RandomSource} {RL : RandomLaws RS}.
Variables N_AND_Q_MAX A_AND_X_MAX : Z.
Hypothesis N_valid : 1 ≤ N_AND_Q_MAX ≤ INT_MAX.

Local Abbreviation n := N_AND_Q_MAX.
Local Abbreviation A := A_AND_X_MAX.

Lemma line_main_to_int seed :
  Line.main n A seed = Line.main n (to_int A) seed.
Proof.
  unfold Line.main. by rewrite (to_int_id (to_int A)) by apply to_int_range.
Qed.

(** A negative bound on the values stops the run at the first draw. *)
Lemma line_main_invalid seed :
  to_int A < 0 → Line.main n A seed = Fail InvalidRangeError.
Proof.
  intros HA. unfold Line.main, run. cbv zeta.
  rewrite (to_int_id n) by int_lia.
  unfold bind at 1. unfold printf at 1. unfold bind at 1. unfold for_ at 1.
  destruct (Z.to_nat n) as [|k] eqn:Hk; [lia|].
  cbn [for_loop]. unfold bind at 1. unfold bind at 1.
  unfold gen_uniform at 1. by rewrite uniform_invalid.
Qed.

Lemma line_main_done seed log :
  Line.main n A seed = Done log →
  ∃ inst p,
    log = tree_layout n n inst
    ∧ Z.of_nat (length (values inst)) = n
    ∧ Forall (λ x, 0 ≤ x ≤ to_int A) (values inst)
    ∧ (∃ g, p = (perm n g).1)
    ∧ p ≡ₚ seqZ 0 n
    ∧ edges inst = relabel (entry p) (path n)
    ∧ Z.of_nat (length (queries inst)) = n
    ∧ Forall (query_in_range n (to_int A)) (queries inst).
Proof.
  intros Hdone. destruct (decide (to_int A < 0)) as [Hneg|Hpos].
  - by rewrite line_main_invalid in Hdone.
  - rewrite line_main_to_int in Hdone.
    assert (0 ≤ to_int A ≤ INT_MAX) as HA.
    { pose proof (to_int_range A) as [_ Hmax]. lia. }
    destruct (line_main_layout n (to_int A) N_valid HA seed)
      as (log' & Hlog' & inst & p & Hprops).
    exists inst, p. by replace log with log' by congruence.
Qed.

End LineDone.

(** ** Runs of [medium.cpp]: fuel, errors, budgets outside the valid ones *)

Section MediumMore.
Context {RS : RandomSource} {RL : RandomLaws RS}.
Variable SUM_OF_CHARACTER_LENGTH : Z.

Local Abbreviation SUM := SUM_OF_CHARACTER_LENGTH.

Lemma medium_program_fuel fuel fuel' seed st r :
  Medium.program SUM fuel seed st = Done r → (fuel ≤ fuel')%nat →
  Medium.program SUM fuel' seed st = Done r.
Proof.
  unfold Medium.program, Medium.generate. intros Hrun Hle.
  unfold bind at 1. unfold bind at 1 in Hrun.
  destruct (Medium.tier seed st) as [[upper st1]| |]; [|done..].
  unfold bind at 1. unfold bind at 1 in Hrun.
  destruct (while_true fuel _ _ st1) as [[l st2]| |] eqn:Hloop; [|done..].
  by rewrite (while_true_fuel _ _ _ _ _ _ Hloop Hle).
Qed.

Lemma medium_main_fuel fuel fuel' seed log :
  Medium.main SUM fuel seed = Done log → (fuel ≤ fuel')%nat →
  Medium.main SUM fuel' seed = Done log.
Proof.
  unfold Medium.main, run. intros Hrun Hle.
  destruct (Medium.program SUM fuel seed _) as [[[] st]| |] eqn:Hprog; [|done..].
  by rewrite (medium_program_fuel _ _ _ _ _ Hprog Hle).
Qed.

Lemma medium_generate_no_fail fuel upper st e :
  1 ≤ upper → Medium.generate SUM fuel upper st ≠ Fail e.
Proof.
  intros Hupper. unfold Medium.generate.
  apply (while_true_no_fail (λ _ _, True)); [|done].
  intros [[A B] lsum] st0 _. eapply wp_mono; [by apply medium_body_wp|].
  by intros [l|l] st1 _.
Qed.

(** The loop prints nothing. *)
Lemma medium_generate_no_stdout fuel upper st l st' :
  1 ≤ upper →
  Medium.generate SUM fuel upper st = Done (l, st') → stdout st' = stdout st.
Proof.
  intros Hupper. unfold Medium.generate.
  apply (while_true_done (λ _ st1, stdout st1 = stdout st)
           (λ _ st1, stdout st1 = stdout st)); [|done].
  intros [[A0 B0] lsum0] st0 Hout.
  eapply wp_mono; [by apply medium_body_wp|].
  intros [l1|l1] st1 (Hout1 & _); congruence.
Qed.

(** The accepted pairs are well formed, whatever the budget. *)
Lemma medium_generate_well_formed fuel upper st A B lsum st' :
  1 ≤ upper →
  Medium.generate SUM fuel upper st = Done ((A, B, lsum), st') →
  length A = length B ∧ Forall well_formed_pair (zip A B).
Proof.
  intros Hupper. unfold Medium.generate.
  apply (while_true_done
    (λ l _, length l.1.1 = length l.1.2 ∧ Forall well_formed_pair (zip l.1.1 l.1.2))
    (λ l _, length l.1.1 = length l.1.2 ∧ Forall well_formed_pair (zip l.1.1 l.1.2)));
    [|by split; [|constructor]].
  intros [[A0 B0] lsum0] st0 [Hlen Hwf]. simpl in Hlen, Hwf.
  eapply wp_mono; [by apply medium_body_wp|].
  intros r st1 (_ & sa & sb & Hab & _ & _ & ->).
  case_decide; simpl; [done|].
  rewrite !length_app, zip_with_app by done. split; [by rewrite Hlen|].
  apply Forall_app. split; [done|]. by apply Forall_singleton.
Qed.

(** Lines 39-42 print the number [(int)A.size()] and as many of the first
    pairs. *)
Lemma medium_print_any (A B : list string) st :
  length A = length B →
  wp (Medium.print A B) st (λ _ st',
    stdout st' = stdout st
      ++ Printf "%d\n" [Int (to_int (Z.of_nat (length A)))]
      :: (pair_event <$> take (Z.to_nat (to_int (Z.of_nat (length A)))) (zip A B))).
Proof.
  intros Hlen. unfold Medium.print.
  assert (length (zip A B) = length A) as HlenAB.
  { rewrite length_zip_with. lia. }
  pose proof (to_int_le (Z.of_nat (length A))) as Hle.
  set (m := to_int (Z.of_nat (length A))) in *.
  apply wp_bind, wp_printf.
  destruct (decide (0 ≤ m)) as [Hm|Hm].
  - eapply wp_mono.
    + apply (wp_for (λ j _ st',
        stdout st' = stdout st ++ Printf "%d\n" [Int m]
          :: (pair_event <$> take (Z.to_nat j) (zip A B)))); [lia|done|].
      intros j [] st' Hj Hout.
      destruct (lookup_lt_is_Some_2 (zip A B) (Z.to_nat j)) as [[a b] Hab]; [lia|].
      pose proof Hab as Hzip.
      apply lookup_zip_with_Some in Hzip as (a' & b' & [= <- <-] & Ha & Hb).
      eapply wp_bind, wp_vec_get; [unfold m in *; pose proof (to_int_range (Z.of_nat (length A))) as [_ ?]; lia|done|].
      eapply wp_bind, wp_vec_get; [unfold m in *; pose proof (to_int_range (Z.of_nat (length A))) as [_ ?]; lia|done|].
      apply wp_printf. simpl.
      replace (Z.to_nat (j + 1)) with (S (Z.to_nat j)) by lia.
      rewrite (take_S_r _ _ _ Hab), fmap_app, Hout.
      by rewrite <- app_assoc.
    + by intros [] st' Hout.
  - unfold for_. replace (Z.to_nat m) with 0%nat by lia. by apply wp_ret.
Qed.

(** What a finished run prints, whatever the budget: a number and
    well-formed pairs. *)
Lemma medium_main_printed fuel seed log :
  Medium.main SUM fuel seed = Done log →
  ∃ count ps,
    log = Printf "%d\n" [Int count] :: (pair_event <$> ps)
    ∧ Forall well_formed_pair ps.
Proof.
  unfold Medium.main, run, Medium.program.
  set (st0 := mkState (Random (to_u64 (seed + 12345))) []).
  unfold bind at 1.
  destruct (Medium.tier seed st0) as [[upper st1]| |] eqn:Htier; [|done..].
  apply medium_tier_range in Htier as (-> & Hupper & _).
  unfold bind at 1.
  destruct (Medium.generate SUM fuel upper st0)
    as [[[[A B] lsum] st2]| |] eqn:Hgen; [|done..].
  pose proof (medium_generate_no_stdout _ _ _ _ _ (proj1 Hupper) Hgen) as Hout.
  apply medium_generate_well_formed in Hgen as [Hlen Hwf]; [|lia].
  destruct (medium_print_any A B st2 Hlen) as ([] & st3 & -> & Hout3).
  intros [= <-]. eexists _, _. split.
  - by rewrite Hout3, Hout.
  - by apply Forall_take.
Qed.

Lemma medium_print_no_range_error A B : no_range_error (Medium.print A B).
Proof.
  unfold Medium.print.
  apply no_range_error_bind; [apply no_range_error_printf|]. intros _.
  apply no_range_error_for_loop. intros j [].
  apply no_range_error_bind; [apply no_range_error_vec_get|]. intros a.
  apply no_range_error_bind; [apply no_range_error_vec_get|]. intros b.
  apply no_range_error_printf.
Qed.

(** For a seed with [seed % 3 >= 0], whose tier is an entry of the table,
    no draw of the run is from an empty range. *)
Lemma medium_main_no_range_error fuel seed :
  0 ≤ seed `rem` 3 →
  Medium.main SUM fuel seed ≠ Fail InvalidRangeError.
Proof.
  intros Hseed. unfold Medium.main, run, Medium.program.
  set (st0 := mkState (Random (to_u64 (seed + 12345))) []).
  unfold bind at 1.
  destruct (medium_tier seed st0) as [(_ & upper & -> & Hl)|[Hneg _]]; [|lia].
  assert (1 ≤ upper) as Hupper.
  { apply list_elem_of_lookup_2 in Hl.
    rewrite !elem_of_cons, elem_of_nil in Hl. lia. }
  unfold bind at 1.
  pose proof (medium_generate_no_fail fuel upper st0 InvalidRangeError Hupper) as Hgen.
  destruct (Medium.generate SUM fuel upper st0) as [[[[A B] lsum] st1]|e|]; [| |done].
  - pose proof (medium_print_no_range_error A B st1) as Hprint.
    destruct (Medium.print A B st1) as [[[] st2]|e|]; congruence.
  - congruence.
Qed.

Lemma medium_main_terminates fuel seed :
  valid_budget SUM → (Z.to_nat (SUM `div` 2) < fuel)%nat →
  (0 ≤ seed `rem` 3 ∧ ∃ log, Medium.main SUM fuel seed = Done log)
  ∨ (seed `rem` 3 < 0 ∧ Medium.main SUM fuel seed = Fail OutOfBounds).
Proof.
  intros Hvalid Hfuel. unfold Medium.main, run, Medium.program.
  set (st0 := mkState (Random (to_u64 (seed + 12345))) []).
  unfold bind at 1. unfold bind at 2.
  destruct (medium_tier seed st0) as [(Hrem & upper & Htier & Hl)|[Hneg ->]];
    [left|by right].
  rewrite Htier. apply medium_tier_range in Htier as (_ & Hupper & _).
  unfold bind at 1.
  destruct (medium_generate_wp SUM fuel upper st0 Hvalid Hupper Hfuel)
    as ([[A B] lsum] & st1 & -> & Hout & Hlen & Hwf & Hle & _).
  pose proof (total_count _ Hwf) as Hcount. rewrite length_zip_with in Hcount.
  destruct (medium_print_wp A B st1 Hlen) as ([] & st2 & -> & _).
  { int_lia. }
  split; [done|]. by eexists.
Qed.

End MediumMore.

Section MediumIntMax.
Context {RS : RandomSource} {RL : RandomLaws RS}.

(** With [INT_MAX] for a budget the comparison of line 34 is never true:
    every candidate is accepted, whatever the total. *)
Lemma medium_body_int_max upper A B lsum st :
  1 ≤ upper →
  ∃ sa sb lsum' st',
    Medium.body INT_MAX upper (A, B, lsum) st
    = Done (inl (A ++ [sa], B ++ [sb], lsum'), st').
Proof.
  intros Hupper.
  destruct (medium_body_wp INT_MAX upper A B lsum st Hupper)
    as (r & st' & Hrun & _ & sa & sb & _ & _ & _ & ->).
  pose proof (to_int_range (to_u64 (to_u64 lsum + to_u64 (size sa + size sb))))
    as [_ Hmax].
  rewrite decide_False in Hrun by (unfold next_lsum; lia).
  by eexists _, _, _, _.
Qed.

Lemma medium_generate_int_max fuel upper l st :
  1 ≤ upper → while_true fuel (Medium.body INT_MAX upper) l st = OutOfFuel.
Proof.
  intros Hupper. revert l st.
  induction fuel as [|fuel IH]; intros [[A B] lsum] st; [done|].
  cbn [while_true]. unfold bind at 1.
  destruct (medium_body_int_max upper A B lsum st Hupper)
    as (sa & sb & lsum' & st' & ->).
  apply IH.
Qed.

Lemma medium_main_int_max fuel seed :
  0 ≤ seed `rem` 3 → Medium.main INT_MAX fuel seed = OutOfFuel.
Proof.
  intros Hrem. unfold Medium.main, run, Medium.program.
  set (st0 := mkState (Random (to_u64 (seed + 12345))) []).
  unfold bind at 1.
  destruct (medium_tier seed st0) as [(_ & upper & Htier & Hl)|[Hneg _]]; [|lia].
  rewrite Htier. apply medium_tier_range in Htier as (_ & Hupper & _).
  unfold bind at 1. unfold Medium.generate.
  rewrite medium_generate_int_max; [done|lia].
Qed.

End MediumIntMax.

(** ** The text of the output *)

Lemma append_assoc (s1 s2 s3 : string) : (s1 +:+ s2) +:+ s3 = s1 +:+ s2 +:+ s3.
Proof. induction s1 as [|c s1 IH]; [done|]. exact (f_equal (String c) IH). Qed.

Lemma append_nil_r (s : string) : s +:+ EmptyString = s.
Proof. induction s as [|c s IH]; [done|]. exact (f_equal (String c) IH). Qed.

Lemma append_cons c (s t : string) : String c s +:+ t = String c (s +:+ t).
Proof. done. Qed.

Lemma append_nil_l (s : string) : EmptyString +:+ s = s.
Proof. done. Qed.

Ltac text_eq :=
  unfold bytes, edge_text, query_text, pair_text, LF; simpl;
  repeat first
    [ rewrite append_assoc | rewrite append_cons
    | rewrite append_nil_l | rewrite append_nil_r ];
  reflexivity.

Lemma bytes_app log1 log2 : bytes (log1 ++ log2) = bytes log1 +:+ bytes log2.
Proof.
  unfold bytes. induction log1 as [|e log1 IH]; simpl; [done|].
  by rewrite IH, append_assoc.
Qed.

Lemma bytes_value_events n i vals :
  i + Z.of_nat (length vals) = n →
  bytes (value_events n i vals) = values_text vals.
Proof.
  revert i. induction vals as [|x vals IH]; intros i Hlen; [done|].
  cbn [value_events]. change (?e :: ?l) with ([e] ++ l).
  rewrite !bytes_app, IH by (simpl in *; lia).
  destruct vals as [|y vals].
  - rewrite decide_False by (simpl in *; lia). text_eq.
  - rewrite decide_True by (simpl in *; lia).
    cbn [values_text]. text_eq.
Qed.

Lemma bytes_edge_events E : bytes (edge_event <$> E) = lines (edge_text <$> E).
Proof.
  induction E as [|[a b] E IH]; [done|].
  cbn [fmap list_fmap lines foldr]. change (?e :: ?l) with ([e] ++ l) at 1.
  rewrite bytes_app. fold (lines (edge_text <$> E)). rewrite <- IH.
  text_eq.
Qed.

Lemma bytes_query_events qs :
  bytes (qs ≫= query_events) = lines (query_text <$> qs).
Proof.
  induction qs as [|q qs IH]; [done|].
  cbn [mbind list_bind fmap list_fmap lines foldr].
  rewrite bytes_app. fold (lines (query_text <$> qs)). rewrite <- IH.
  destruct q; text_eq.
Qed.

Lemma bytes_tree_layout n q inst :
  Z.of_nat (length (values inst)) = n →
  bytes (tree_layout n q inst) = tree_text n q inst.
Proof.
  intros Hlen. unfold tree_layout, tree_text.
  change (?e :: ?l ++ ?e' :: ?l') with ([e] ++ l ++ [e'] ++ l').
  rewrite !bytes_app, bytes_value_events, bytes_edge_events, bytes_query_events by lia.
  text_eq.
Qed.

Lemma bytes_pairs_layout ps : bytes (pairs_layout ps) = pairs_text ps.
Proof.
  unfold pairs_layout, pairs_text.
  change (?e :: ?l) with ([e] ++ l). rewrite bytes_app.
  assert (bytes (pair_event <$> ps) = lines (pair_text <$> ps)) as ->.
  { induction ps as [|[a b] ps IH]; [done|].
    cbn [fmap list_fmap lines foldr]. change (?e :: ?l) with ([e] ++ l) at 1.
    rewrite bytes_app. fold (lines (pair_text <$> ps)). rewrite <- IH.
    text_eq. }
  text_eq.
Qed.

(** ** The edge lines of [line.cpp] *)

Section LineEdge.
Context {RS : RandomSource}.

(** A size that is not positive stops the run at the first container. *)
Lemma line_main_no_vertex N A seed :
  INT_MIN < N ≤ 0 → Line.main N A seed = Fail LengthError.
Proof.
  intros HN. unfold Line.main, run. cbv zeta.
  rewrite (to_int_id N) by int_lia.
  rewrite (int_sub_id N 1) by int_lia.
  unfold bind at 1. unfold printf at 1. unfold bind at 1. unfold for_ at 1.
  replace (Z.to_nat N) with 0%nat by lia. cbn [for_loop]. unfold ret at 1.
  unfold bind at 1. unfold printf at 1. unfold bind at 1.
  unfold vector_new at 1. unfold to_u64.
  rewrite decide_False; [done|].
  assert ((N - 1) `mod` 2 ^ 64 = N - 1 + 2 ^ 64) as ->; [|int_lia].
  symmetry. apply (Z.mod_unique _ _ (-1)); int_lia.
Qed.

End LineEdge.

Section EdgeChain.
Variable n : Z.
Variable p : list Z.
Hypothesis p_perm : p ≡ₚ seqZ 0 n.

Local Abbreviation E := (relabel (entry p) (path n)).

Lemma relabel_chain i a b c d :
  E !! i = Some (a, b) → E !! S i = Some (c, d) → b = c.
Proof.
  intros H1 H2.
  apply (relabel_lookup_Some n p) in H1 as (-> & -> & _).
  apply (relabel_lookup_Some n p) in H2 as (-> & -> & _).
  f_equal. lia.
Qed.

Lemma relabel_no_loop a b : (a, b) ∈ E → a ≠ b.
Proof.
  intros Hin Heq. apply list_elem_of_lookup in Hin as [j Hj].
  apply (relabel_lookup_Some n p) in Hj as (-> & -> & Hj).
  apply (entry_inj n p p_perm) in Heq; lia.
Qed.

Lemma relabel_fst_take : E.*1 = take (Z.to_nat (n - 1)) p.
Proof.
  pose proof (perm_length n p p_perm) as Hlen.
  apply list_eq; intros j. rewrite list_lookup_fmap.
  destruct (decide (Z.of_nat j < n - 1)) as [Hj|Hj].
  - rewrite (relabel_lookup n p) by done. simpl.
    rewrite lookup_take_lt by lia.
    rewrite <- (entry_lookup n p p_perm (Z.of_nat j)) by lia.
    by rewrite Nat2Z.id.
  - pose proof (relabel_length n p).
    rewrite lookup_ge_None_2 by lia. simpl.
    symmetry. apply lookup_ge_None_2. rewrite length_take. lia.
Qed.

Lemma relabel_snd_drop : E.*2 = drop 1 p.
Proof.
  pose proof (perm_length n p p_perm) as Hlen.
  apply list_eq; intros j. rewrite list_lookup_fmap, lookup_drop.
  destruct (decide (Z.of_nat j < n - 1)) as [Hj|Hj].
  - rewrite (relabel_lookup n p) by done. simpl.
    rewrite <- (entry_lookup n p p_perm (Z.of_nat j + 1)) by lia.
    f_equal. lia.
  - pose proof (relabel_length n p).
    rewrite lookup_ge_None_2 by lia. simpl.
    symmetry. apply lookup_ge_None_2. lia.
Qed.

Lemma relabel_fst_NoDup : NoDup (E.*1).
Proof. rewrite relabel_fst_take. apply (sublist_NoDup _ p); [apply (perm_NoDup n p p_perm)|apply sublist_take]. Qed.

Lemma relabel_snd_NoDup : NoDup (E.*2).
Proof. rewrite relabel_snd_drop. apply (sublist_NoDup _ p); [apply (perm_NoDup n p p_perm)|apply sublist_drop]. Qed.

(** The first endpoint of the first edge followed by the second endpoints
    is the permutation: every vertex once. *)
Lemma relabel_vertices : 2 ≤ n → take 1 (E.*1) ++ E.*2 ≡ₚ seqZ 0 n.
Proof.
  intros Hn. rewrite relabel_fst_take, relabel_snd_drop, take_take.
  replace (1 `min` Z.to_nat (n - 1))%nat with 1%nat by lia.
  by rewrite take_drop.
Qed.

End EdgeChain.

(** ** Digits and the numbers they denote *)

Lemma chars_push_back s c :
  String.list_ascii_of_string (push_back s c) = String.list_ascii_of_string s ++ [c].
Proof.
  unfold push_back. induction s as [|c' s IH]; [done|].
  exact (f_equal (cons c') IH).
Qed.

Lemma all_digits_push_back s c : all_digits s → is_digit c → all_digits (push_back s c).
Proof.
  unfold all_digits. intros Hs Hc. rewrite chars_push_back.
  apply Forall_app. split; [done|]. by apply Forall_singleton.
Qed.

Lemma digit_char_digit d : 0 ≤ d ≤ 9 → is_digit (to_char (int_add 48 d)).
Proof.
  intros Hd.
  assert (d = 0 ∨ d = 1 ∨ d = 2 ∨ d = 3 ∨ d = 4 ∨ d = 5 ∨ d = 6
          ∨ d = 7 ∨ d = 8 ∨ d = 9) as Hcases by lia.
  destruct_or! Hcases; subst d; vm_compute; split; discriminate.
Qed.

Lemma is_digit_char c :
  is_digit c → (digit_value c < 10)%N ∧ pretty_N_char (digit_value c) = c.
Proof.
  unfold is_digit, digit_value. intros Hc.
  rewrite <- (ascii_N_embedding c) at 3.
  assert (N_of_ascii c = 48 ∨ N_of_ascii c = 49 ∨ N_of_ascii c = 50
          ∨ N_of_ascii c = 51 ∨ N_of_ascii c = 52 ∨ N_of_ascii c = 53
          ∨ N_of_ascii c = 54 ∨ N_of_ascii c = 55 ∨ N_of_ascii c = 56
          ∨ N_of_ascii c = 57)%N as Hcases by lia.
  destruct_or! Hcases; rewrite Hcases; split; (lia || done).
Qed.

Lemma digit_value_zero c : is_digit c → digit_value c = 0%N → c = "0"%char.
Proof.
  intros Hc H0. apply is_digit_char in Hc as [_ <-]. by rewrite H0.
Qed.

Lemma number_from_le acc s : (acc ≤ number_from acc s)%N.
Proof.
  revert acc. induction s as [|c s IH]; intros acc; simpl; [lia|].
  etrans; [|apply IH]. lia.
Qed.

Lemma pretty_number_from acc s t :
  (0 < acc)%N → all_digits s →
  pretty_N_go (number_from acc s) t = pretty_N_go acc (s +:+ t).
Proof.
  revert acc. induction s as [|c s IH]; intros acc Hacc Hs; [done|].
  apply Forall_cons in Hs as [Hc Hs]. apply is_digit_char in Hc as [Hlt Hchar].
  cbn [number_from]. rewrite IH by (done || lia).
  rewrite pretty_N_go_step by lia.
  replace ((10 * acc + digit_value c) `div` 10)%N with acc.
  - replace ((10 * acc + digit_value c) `mod` 10)%N with (digit_value c).
    + by rewrite Hchar.
    + apply (N.mod_unique _ _ acc); [done|lia].
  - apply (N.div_unique _ _ _ (digit_value c)); [done|lia].
Qed.

(** A string of digits without a leading zero is the decimal numeral of
    the number it denotes, and that number is not zero. *)
Lemma pretty_number s :
  all_digits s → 1 ≤ size s → first_char s ≠ Some "0"%char →
  pretty (number s) = s ∧ (1 ≤ number s)%N.
Proof.
  intros Hs Hsize Hfirst. destruct s as [|c s]; [unfold size in Hsize; simpl in Hsize; lia|].
  apply Forall_cons in Hs as [Hc Hs].
  assert (0 < digit_value c)%N as Hpos.
  { destruct (decide (digit_value c = 0%N)) as [H0|H0]; [|lia].
    apply digit_value_zero in H0; [|done]. simpl in Hfirst. congruence. }
  unfold number. cbn [number_from]. rewrite N.mul_0_r, N.add_0_l.
  pose proof (number_from_le (digit_value c) s) as Hle.
  split; [|lia].
  unfold pretty, pretty_N. rewrite decide_False by lia.
  rewrite pretty_number_from by done.
  rewrite pretty_N_go_step by done.
  apply is_digit_char in Hc as [Hlt Hchar].
  rewrite N.div_small, N.mod_small by done.
  rewrite pretty_N_go_0, Hchar. f_equal. apply append_nil_r.
Qed.

(** The same for a string that may be the single digit 0. *)
Lemma pretty_number_zero s :
  all_digits s → 1 ≤ size s → (first_char s = Some "0"%char → size s = 1) →
  pretty (number s) = s.
Proof.
  intros Hs Hsize Hfirst.
  destruct (decide (first_char s = Some "0"%char)) as [Hz|Hz].
  - specialize (Hfirst Hz). destruct s as [|c [|c' s]]; simpl in Hz.
    + done.
    + by injection Hz as ->.
    + unfold size in Hfirst. simpl in Hfirst. lia.
  - by apply pretty_number.
Qed.

(** ** The tier of every seed *)

Section Tier.
Context {RS : RandomSource}.

Lemma rem_mod_3 seed :
  (seed < 0 ∧ seed `mod` 3 ≠ 0 ∧ seed `rem` 3 < 0)
  ∨ (¬ (seed < 0 ∧ seed `mod` 3 ≠ 0) ∧ seed `rem` 3 = seed `mod` 3
     ∧ 0 ≤ seed `mod` 3 < 3).
Proof.
  pose proof (Z.mod_pos_bound seed 3) as Hmod.
  pose proof (Z.div_mod seed 3) as Hdiv.
  pose proof (Z.quot_rem' seed 3) as Hquot.
  destruct (decide (0 ≤ seed)) as [Hpos|Hneg].
  - right. rewrite Z.rem_mod_nonneg by lia. lia.
  - pose proof (Z.rem_opp_l' seed 3) as Hopp.
    rewrite Z.rem_mod_nonneg in Hopp by lia.
    pose proof (Z.mod_pos_bound (- seed) 3) as Hmod'.
    pose proof (Z.div_mod (- seed) 3) as Hdiv'. lia.
Qed.

Lemma medium_tier_of seed (st : State) :
  Medium.tier seed st
  = if decide (seed < 0 ∧ seed `mod` 3 ≠ 0) then Fail OutOfBounds
    else Done (tier_of (seed `mod` 3), st).
Proof.
  destruct (medium_tier seed st) as [(Hrem & u & -> & Hl)|[Hrem ->]];
    destruct (rem_mod_3 seed) as [(Hneg & Hmod & Hr)|(Hok & Heq & Hmod)];
    try lia.
  - rewrite decide_False by done. rewrite Heq in Hl.
    assert (seed `mod` 3 = 0 ∨ seed `mod` 3 = 1 ∨ seed `mod` 3 = 2) as Hcases by lia.
    destruct_or! Hcases; rewrite Hcases in *; simpl in Hl; by injection Hl as <-.
  - by rewrite decide_True.
Qed.

Lemma tier_of_range r : 1 ≤ tier_of r ≤ TIER_MAX.
Proof. unfold TIER_MAX. destruct r as [|[]|]; simpl; lia. Qed.

End Tier.

(** ** One turn of the loop, with its draws *)

Section MediumDigits.
Context {RS : RandomSource} {RL : RandomLaws RS}.
Variable SUM_OF_CHARACTER_LENGTH : Z.

Local Abbreviation SUM := SUM_OF_CHARACTER_LENGTH.

Lemma wp_and {A} (m : M A) st (Q Q' : A → State → Prop) :
  wp m st Q → wp m st Q' → wp m st (λ a st', Q a st' ∧ Q' a st').
Proof.
  intros (a & st' & Hm & HQ) (a' & st'' & Hm' & HQ').
  rewrite Hm in Hm'. injection Hm' as <- <-. by exists a, st'.
Qed.

(** The draw with the state of the engine before and after it. *)
Lemma wp_uniform_draw lo hi st (Q : Z → State → Prop) :
  lo ≤ hi →
  (∀ x g', uniform lo hi (gen st) = Some (x, g') → lo ≤ x ≤ hi →
     Q x (mkState g' (stdout st))) →
  wp (gen_uniform lo hi) st Q.
Proof.
  intros Hle HQ.
  destruct (uniform_range lo hi (gen st) Hle) as (x & g' & Hu & Hx).
  exists x, (mkState g' (stdout st)). unfold gen_uniform. rewrite Hu. auto.
Qed.

Lemma medium_digits_a_digits alen st :
  0 ≤ alen → wp (Medium.digits_a alen) st (λ s _, all_digits s).
Proof.
  intros Halen. unfold Medium.digits_a. eapply wp_mono.
  - apply (wp_for (λ _ s _, all_digits s)); [lia|constructor|].
    intros j s st' Hj Hs. cbv zeta.
    apply wp_bind, wp_uniform; [case_decide; lia|]. intros d g' Hd.
    apply wp_ret. apply all_digits_push_back; [done|].
    apply digit_char_digit. case_decide; lia.
  - done.
Qed.

Lemma medium_digits_b_digits blen st :
  0 ≤ blen → wp (Medium.digits_b blen) st (λ s _, all_digits s).
Proof.
  intros Hblen. unfold Medium.digits_b. eapply wp_mono.
  - apply (wp_for (λ _ s _, all_digits s)); [lia|constructor|].
    intros j s st' Hj Hs. cbv zeta.
    apply wp_bind, wp_uniform; [case_decide; lia|]. intros d g' Hd.
    apply wp_ret. apply all_digits_push_back; [done|].
    apply digit_char_digit. case_decide; lia.
  - done.
Qed.

(** One turn of the loop with its three draws: the strings are digits, as
    long as the drawn lengths, the longer one first unless the third draw
    is 0. *)
Lemma medium_body_draws upper A B lsum st :
  1 ≤ upper →
  wp (Medium.body SUM upper (A, B, lsum)) st (λ r st',
    stdout st' = stdout st
    ∧ ∃ alen blen c g1 g2 g3 sa sb,
        uniform 1 upper (gen st) = Some (alen, g1)
        ∧ uniform 1 upper g1 = Some (blen, g2)
        ∧ uniform 0 9 g2 = Some (c, g3)
        ∧ 1 ≤ alen ≤ upper ∧ 1 ≤ blen ≤ upper ∧ 0 ≤ c ≤ 9
        ∧ size sa = (if decide (c ≠ 0) then alen `max` blen else alen)
        ∧ size sb = (if decide (c ≠ 0) then alen `min` blen else blen)
        ∧ digit_pair upper (sa, sb)
        ∧ r = if decide (next_lsum lsum sa sb > SUM)
              then inr (A, B, next_lsum lsum sa sb)
              else inl (A ++ [sa], B ++ [sb], next_lsum lsum sa sb)).
Proof.
  intros Hupper. unfold Medium.body.
  apply wp_bind, wp_uniform_draw; [done|]. intros alen g1 Hdraw1 Halen.
  apply wp_bind, wp_uniform_draw; [done|]. intros blen g2 Hdraw2 Hblen.
  apply wp_bind, wp_uniform_draw; [done|]. intros c g3 Hdraw3 Hc.
  simpl in Hdraw2, Hdraw3.
  set (ab := if decide (c ≠ 0) then
               if decide (alen < blen) then (blen, alen) else (alen, blen)
             else (alen, blen)).
  assert (ab.1 = (if decide (c ≠ 0) then alen `max` blen else alen)
          ∧ ab.2 = (if decide (c ≠ 0) then alen `min` blen else blen))
    as [Ha Hb].
  { unfold ab. repeat case_decide; simpl; lia. }
  assert (1 ≤ ab.1 ≤ upper ∧ 1 ≤ ab.2 ≤ upper) as [Ha' Hb'].
  { rewrite Ha, Hb. case_decide; lia. }
  destruct ab as [alen' blen']. simpl in Ha, Hb, Ha', Hb'.
  apply wp_bind. eapply wp_mono.
  { apply wp_and; [apply medium_digits_a_wp|apply medium_digits_a_digits]; lia. }
  intros sa st1 [(Hout1 & Hsa & Hfa) Hda].
  apply wp_bind. eapply wp_mono.
  { apply wp_and; [apply medium_digits_b_wp|apply medium_digits_b_digits]; lia. }
  intros sb st2 [(Hout2 & Hsb & Hfb) Hdb].
  cbv zeta. fold (next_lsum lsum sa sb).
  assert (stdout st2 = stdout st) as Hout by (by rewrite Hout2, Hout1).
  assert (digit_pair upper (sa, sb)) as Hpair.
  { unfold digit_pair, well_formed_pair. simpl.
    split_and!; [lia| |lia|done|lia|lia|done|done].
    intros Hz. rewrite Hsa. by apply Hfa. }
  destruct (decide (next_lsum lsum sa sb > SUM)) as [Hgt|Hgt];
    apply wp_ret; (split; [done|]);
    exists alen, blen, c, g1, g2, g3, sa, sb;
    split_and!; try (done || lia || congruence).
  - by rewrite decide_True.
  - by rewrite decide_False.
Qed.

Lemma medium_body_digits upper A B lsum st :
  1 ≤ upper →
  wp (Medium.body SUM upper (A, B, lsum)) st (λ r st',
    ∃ sa sb, digit_pair upper (sa, sb)
      ∧ r = if decide (next_lsum lsum sa sb > SUM)
            then inr (A, B, next_lsum lsum sa sb)
            else inl (A ++ [sa], B ++ [sb], next_lsum lsum sa sb)).
Proof.
  intros Hupper. eapply wp_mono; [by apply medium_body_draws|].
  intros r st' (_ & alen & blen & c & g1 & g2 & g3 & sa & sb & H).
  exists sa, sb. tauto.
Qed.

(** The accepted pairs are digit strings of at most [upper] characters,
    whatever the budget. *)
Lemma medium_generate_digits fuel upper st A B lsum st' :
  1 ≤ upper →
  Medium.generate SUM fuel upper st = Done ((A, B, lsum), st') →
  length A = length B ∧ Forall (digit_pair upper) (zip A B).
Proof.
  intros Hupper. unfold Medium.generate.
  apply (while_true_done
    (λ l _, length l.1.1 = length l.1.2 ∧ Forall (digit_pair upper) (zip l.1.1 l.1.2))
    (λ l _, length l.1.1 = length l.1.2 ∧ Forall (digit_pair upper) (zip l.1.1 l.1.2)));
    [|by split; [|constructor]].
  intros [[A0 B0] lsum0] st0 [Hlen Hwf]. simpl in Hlen, Hwf.
  eapply wp_mono; [by apply medium_body_digits|].
  intros r st1 (sa & sb & Hab & ->).
  case_decide; simpl; [done|].
  rewrite !length_app, zip_with_app by done. split; [by rewrite Hlen|].
  apply Forall_app. split; [done|]. by apply Forall_singleton.
Qed.

(** With a valid budget the candidate that ends the loop has at most
    [2 * upper] characters: the budget is used up to less than that. *)
Lemma medium_generate_slack fuel upper st A B lsum st' :
  valid_budget SUM → 1 ≤ upper ≤ TIER_MAX →
  Medium.generate SUM fuel upper st = Done ((A, B, lsum), st') →
  SUM < total (zip A B) + 2 * upper.
Proof.
  intros Hvalid Hupper. unfold Medium.generate.
  apply (while_true_done (loop_inv SUM st)
    (λ l _, SUM < total (zip l.1.1 l.1.2) + 2 * upper)); [|by apply loop_inv_init].
  intros [[A0 B0] lsum0] st0 Hinv.
  eapply wp_mono.
  { apply wp_and; [by apply (medium_body_inv SUM upper st)|apply medium_body_wp; lia]. }
  intros r st1 [Hr (_ & sa & sb & Hab & Hsa & Hsb & ->)].
  destruct Hinv as (_ & _ & Hwf & -> & Hle).
  pose proof Hab as (Ha1 & _ & Hb1 & _). simpl in Ha1, Hb1.
  pose proof (total_nonneg (zip A0 B0)) as Hnonneg.
  rewrite (next_lsum_exact SUM upper) in * by (done || lia).
  case_decide; [simpl; lia|tauto].
Qed.

Lemma total_digit_pairs upper ps :
  Forall (digit_pair upper) ps → total ps ≤ 2 * upper * Z.of_nat (length ps).
Proof.
  induction 1 as [|ab ps (_ & Ha & Hb & _) _ IH]; simpl in *; lia.
Qed.

(** A finished run: the seed has a tier, the loop has ended with [A] and
    [B], and the count and the pairs of [A] and [B] are printed. *)
Lemma medium_main_pairs fuel seed log :
  Medium.main SUM fuel seed = Done log →
  ¬ (seed < 0 ∧ seed `mod` 3 ≠ 0)
  ∧ ∃ st A B lsum st',
      Medium.generate SUM fuel (tier_of (seed `mod` 3)) st = Done ((A, B, lsum), st')
      ∧ length A = length B
      ∧ log = Printf "%d\n" [Int (to_int (Z.of_nat (length A)))]
          :: (pair_event <$> take (Z.to_nat (to_int (Z.of_nat (length A)))) (zip A B)).
Proof.
  unfold Medium.main, run, Medium.program.
  set (st0 := mkState (Random (to_u64 (seed + 12345))) []).
  unfold bind at 1. rewrite medium_tier_of.
  case_decide as Hseed; [done|].
  pose proof (tier_of_range (seed `mod` 3)) as Hupper.
  unfold bind at 1.
  destruct (Medium.generate SUM fuel (tier_of (seed `mod` 3)) st0)
    as [[[[A B] lsum] st2]| |] eqn:Hgen; [|done..].
  pose proof (medium_generate_no_stdout _ _ _ _ _ _ (proj1 Hupper) Hgen) as Hout.
  pose proof (medium_generate_digits _ _ _ _ _ _ _ (proj1 Hupper) Hgen) as [Hlen _].
  destruct (medium_print_any A B st2 Hlen) as ([] & st3 & -> & Hout3).
  intros [= <-]. split; [done|].
  exists st0, A, B, lsum, st2. split_and!; [done..|].
  by rewrite Hout3, Hout.
Qed.

(** A budget below 2: the first candidate is over it, nothing is accepted
    and the count 0 is printed alone. *)
Lemma medium_generate_small fuel upper st :
  1 ≤ upper ≤ TIER_MAX → SUM < 2 →
  ∃ lsum st',
    Medium.generate SUM (S fuel) upper st = Done (([], [], lsum), st')
    ∧ stdout st' = stdout st.
Proof.
  intros Hupper Hsmall.
  destruct (medium_body_wp SUM upper [] [] 0 st)
    as (r & st' & Hrun & Hout & sa & sb & Hab & Hsa & Hsb & ->); [lia|].
  destruct Hab as (Ha1 & _ & Hb1 & _). simpl in Ha1, Hb1.
  rewrite (next_lsum_exact 0 upper) in Hrun by (int_lia || lia).
  rewrite decide_True in Hrun by lia.
  exists (0 + size sa + size sb), st'. split; [|done].
  unfold Medium.generate. cbn [while_true]. unfold bind at 1. by rewrite Hrun.
Qed.

Lemma medium_main_small fuel seed :
  SUM < 2 → ¬ (seed < 0 ∧ seed `mod` 3 ≠ 0) →
  Medium.main SUM (S fuel) seed = Done (pairs_layout []).
Proof.
  intros Hsmall Hseed. unfold Medium.main, run, Medium.program.
  set (st0 := mkState (Random (to_u64 (seed + 12345))) []).
  unfold bind at 1. rewrite medium_tier_of, decide_False by done.
  destruct (medium_generate_small fuel (tier_of (seed `mod` 3)) st0)
    as (lsum & st1 & Hgen & Hout); [apply tier_of_range|done|].
  unfold bind at 1. rewrite Hgen.
  destruct (medium_print_wp [] [] st1) as ([] & st2 & -> & Hout2); [done|simpl; int_lia|].
  by rewrite Hout2, Hout.
Qed.

End MediumDigits.

(** ** The turns of the loop of [medium.cpp] *)

Section MediumTurns.
Context {RS : RandomSource} {RL : RandomLaws RS}.
Variable SUM_OF_CHARACTER_LENGTH : Z.

Local Abbreviation SUM := SUM_OF_CHARACTER_LENGTH.

(** The loop makes one turn for every accepted pair and one more for the
    candidate that ends it. *)
Lemma medium_loop_turns fuel upper A0 B0 lsum0 st A B lsum st' :
  1 ≤ upper →
  while_true fuel (Medium.body SUM upper) (A0, B0, lsum0) st = Done ((A, B, lsum), st') →
  ∃ k : nat,
    length A = (length A0 + k)%nat
    ∧ ∀ fuel', while_true fuel' (Medium.body SUM upper) (A0, B0, lsum0) st
        = if decide (k < fuel')%nat then Done ((A, B, lsum), st') else OutOfFuel.
Proof.
  intros Hupper. revert A0 B0 lsum0 st.
  induction fuel as [|fuel IH]; intros A0 B0 lsum0 st; [done|].
  cbn [while_true]. unfold bind at 1.
  destruct (medium_body_wp SUM upper A0 B0 lsum0 st Hupper)
    as (r & st1 & Hbody & _ & sa & sb & _ & _ & _ & ->).
  rewrite Hbody. case_decide as Hcmp.
  - intros [= <- <- <- <-]. exists 0%nat. split; [lia|].
    intros [|fuel']; [done|].
    cbn [while_true]. unfold bind at 1. rewrite Hbody.
    by rewrite decide_True by lia.
  - intros Hrun. apply IH in Hrun as (k & Hlen & Hturns).
    exists (S k). rewrite length_app in Hlen. simpl in Hlen. split; [lia|].
    intros [|fuel']; [done|].
    cbn [while_true]. unfold bind at 1. rewrite Hbody, Hturns.
    destruct (decide (k < fuel')%nat); [by rewrite decide_True by lia|].
    by rewrite decide_False by lia.
Qed.

Lemma medium_main_turns fuel seed log :
  valid_budget SUM →
  Medium.main SUM fuel seed = Done log →
  ∃ ps,
    log = pairs_layout ps
    ∧ ∀ fuel', Medium.main SUM fuel' seed
        = if decide (length ps < fuel')%nat then Done log else OutOfFuel.
Proof.
  intros Hvalid. unfold Medium.main, run, Medium.program.
  set (st0 := mkState (Random (to_u64 (seed + 12345))) []).
  unfold bind at 1. rewrite medium_tier_of.
  case_decide as Hseed; [done|].
  pose proof (tier_of_range (seed `mod` 3)) as Hupper.
  unfold bind at 1.
  destruct (Medium.generate SUM fuel (tier_of (seed `mod` 3)) st0)
    as [[[[A B] lsum] st1]| |] eqn:Hgen; [|done..].
  pose proof (medium_generate_done _ _ _ _ _ _ Hvalid Hupper Hgen)
    as (Hout & Hlen & Hwf & Hle & _).
  pose proof (total_count _ Hwf) as Hcount.
  assert (length (zip A B) = length A) as HlenAB.
  { rewrite length_zip_with. lia. }
  rewrite HlenAB in Hcount.
  destruct (medium_print_wp A B st1 Hlen) as ([] & st2 & Hprint & Hout2); [int_lia|].
  rewrite Hprint. intros [= <-]. exists (zip A B).
  split; [by rewrite Hout2, Hout|].
  intros fuel'. unfold bind at 1. rewrite medium_tier_of, decide_False by done.
  unfold bind at 1.
  destruct (medium_loop_turns _ _ _ _ _ _ _ _ _ _ (proj1 Hupper) Hgen)
    as (k & Hk & Hturns).
  simpl in Hk. subst k. unfold Medium.generate. rewrite Hturns, HlenAB.
  case_decide; [by rewrite Hprint|done].
Qed.

End MediumTurns.

(** ** One turn of the loop, step by step *)

Section MediumCandidate.
Context {RS : RandomSource} {RL : RandomLaws RS}.
Variable SUM_OF_CHARACTER_LENGTH : Z.

Local Abbreviation SUM := SUM_OF_CHARACTER_LENGTH.

(** One turn of the loop, step by step: the three draws, the two strings
    drawn with the lengths they give, and the comparison of line 34 on the
    strings as they were drawn. *)
Lemma medium_body_candidate upper A B lsum st :
  1 ≤ upper →
  ∃ alen blen c g1 g2 g3 sa st1 sb st2,
    uniform 1 upper (gen st) = Some (alen, g1)
    ∧ uniform 1 upper g1 = Some (blen, g2)
    ∧ uniform 0 9 g2 = Some (c, g3)
    ∧ Medium.digits_a (if decide (c ≠ 0) then alen `max` blen else alen)
        (mkState g3 (stdout st)) = Done (sa, st1)
    ∧ Medium.digits_b (if decide (c ≠ 0) then alen `min` blen else blen) st1
      = Done (sb, st2)
    ∧ 1 ≤ size sa ≤ upper ∧ 1 ≤ size sb ≤ upper
    ∧ Medium.body SUM upper (A, B, lsum) st
      = Done (if decide (next_lsum lsum sa sb > SUM)
              then inr (A, B, next_lsum lsum sa sb)
              else inl (A ++ [sa], B ++ [sb], next_lsum lsum sa sb), st2).
Proof.
  intros Hupper.
  destruct (uniform_range 1 upper (gen st) Hupper) as (alen & g1 & H1 & Ha).
  destruct (uniform_range 1 upper g1 Hupper) as (blen & g2 & H2 & Hb).
  destruct (uniform_range 0 9 g2) as (c & g3 & H3 & Hc); [lia|].
  set (la := if decide (c ≠ 0) then alen `max` blen else alen).
  set (lb := if decide (c ≠ 0) then alen `min` blen else blen).
  assert (1 ≤ la ≤ upper ∧ 1 ≤ lb ≤ upper) as [Hla Hlb].
  { unfold la, lb. case_decide; lia. }
  destruct (medium_digits_a_wp la (mkState g3 (stdout st)))
    as (sa & st1 & Hda & _ & Hsa & _); [lia|].
  destruct (medium_digits_b_wp lb st1) as (sb & st2 & Hdb & _ & Hsb & _); [lia|].
  exists alen, blen, c, g1, g2, g3, sa, st1, sb, st2.
  split_and!; [done..|lia|lia|lia|lia|].
  assert ((if decide (c ≠ 0)
           then if decide (alen < blen) then (blen, alen) else (alen, blen)
           else (alen, blen)) = (la, lb)) as Hswap.
  { unfold la, lb. repeat case_decide; f_equal; lia. }
  unfold Medium.body.
  unfold bind at 1. unfold gen_uniform at 1. rewrite H1.
  unfold bind at 1. unfold gen_uniform at 1. cbn [gen stdout]. rewrite H2.
  unfold bind at 1. unfold gen_uniform at 1. cbn [gen stdout]. rewrite H3.
  rewrite Hswap. unfold bind at 1. rewrite Hda.
  unfold bind at 1. rewrite Hdb. unfold next_lsum.
  repeat case_decide; (done || lia).
Qed.

End MediumCandidate.

(** * Main results *)

(** ** The tree instance *)

(** C1.  For every seed and every [N_AND_Q_MAX >= 1] (a value of [int]),
    the edge lines of a finished run of [line.cpp] are [N - 1] edges that
    form a connected, acyclic graph on the vertices [0 .. N-1]; they are the
    path [0 - 1 - ... - (N-1)] relabelled by the drawn permutation [p]:
    edge [i], printed in position [i], joins [p[i]] and [p[i+1]], and the
    inverse of [p] applied to every endpoint gives the path back. *)
Theorem tree_edges_relabelled_path {RS : RandomSource} {RL : RandomLaws RS}
    (N_AND_Q_MAX A_AND_X_MAX seed : Z) (log : list event) :
  1 ≤ N_AND_Q_MAX ≤ INT_MAX →
  Line.main N_AND_Q_MAX A_AND_X_MAX seed = Done log →
  ∃ inst p,
    log = tree_layout N_AND_Q_MAX N_AND_Q_MAX inst
    ∧ Z.of_nat (length (values inst)) = N_AND_Q_MAX
    ∧ (∃ g, p = (perm N_AND_Q_MAX g).1)
    ∧ p ≡ₚ seqZ 0 N_AND_Q_MAX
    ∧ is_tree N_AND_Q_MAX (edges inst)
    ∧ relabel (inverse p) (edges inst) = path N_AND_Q_MAX
    ∧ ∀ i, 0 ≤ i < N_AND_Q_MAX - 1 →
        edges inst !! Z.to_nat i = Some (entry p i, entry p (i + 1)).
Proof.
  intros HN Hrun.
  destruct (line_main_done _ _ HN _ _ Hrun)
    as (inst & p & -> & Hvals & _ & Hdraw & Hp & HE & _ & _).
  exists inst, p. rewrite HE. split_and!; [done..| | |].
  - apply relabel_is_tree; [done|lia].
  - by apply relabel_inverse.
  - intros i Hi. rewrite (relabel_lookup N_AND_Q_MAX p) by lia.
    by rewrite Z2Nat.id by lia.
Qed.

Lemma tree_edges_relabelled_path_witness :
  ∃ inst p,
    example_tree_log = tree_layout 3 3 inst
    ∧ Z.of_nat (length (values inst)) = 3
    ∧ (∃ g, p = (perm (RandomSource := Lcg.source) 3 g).1)
    ∧ p ≡ₚ seqZ 0 3
    ∧ is_tree 3 (edges inst)
    ∧ relabel (inverse p) (edges inst) = path 3
    ∧ ∀ i, 0 ≤ i < 3 - 1 →
        edges inst !! Z.to_nat i = Some (entry p i, entry p (i + 1)).
Proof.
  apply (tree_edges_relabelled_path (RS := Lcg.source) 3 5 1).
  - unfold INT_MAX. lia.
  - vm_compute. reflexivity.
Defined.

(** C8.  For every seed and [N_AND_Q_MAX >= 1], with [A_AND_X_MAX] a value
    of [int]: every value of the second line and every value [x] of an
    update is in [[0, A_AND_X_MAX]], and every vertex of an edge line, of an
    update and of a path query is in [[0, N)]. *)
Theorem tree_values_and_vertices_in_range {RS : RandomSource} {RL : RandomLaws RS}
    (N_AND_Q_MAX A_AND_X_MAX seed : Z) (log : list event) :
  1 ≤ N_AND_Q_MAX ≤ INT_MAX →
  is_int A_AND_X_MAX →
  Line.main N_AND_Q_MAX A_AND_X_MAX seed = Done log →
  ∃ inst,
    log = tree_layout N_AND_Q_MAX N_AND_Q_MAX inst
    ∧ Z.of_nat (length (values inst)) = N_AND_Q_MAX
    ∧ Z.of_nat (length (edges inst)) = N_AND_Q_MAX - 1
    ∧ Z.of_nat (length (queries inst)) = N_AND_Q_MAX
    ∧ Forall (λ x, 0 ≤ x ≤ A_AND_X_MAX) (values inst)
    ∧ Forall (λ e, 0 ≤ e.1 < N_AND_Q_MAX ∧ 0 ≤ e.2 < N_AND_Q_MAX) (edges inst)
    ∧ Forall (query_in_range N_AND_Q_MAX A_AND_X_MAX) (queries inst).
Proof.
  intros HN HA Hrun.
  destruct (line_main_done _ _ HN _ _ Hrun)
    as (inst & p & -> & Hvals & Hrange & _ & Hp & HE & Hqs & Hqrange).
  rewrite to_int_id in Hrange, Hqrange by done.
  exists inst. split_and!; [done|done| |done|done| |done].
  - rewrite HE, (relabel_length N_AND_Q_MAX p). lia.
  - rewrite HE. apply Forall_forall. intros [a b] Hab. simpl.
    by apply (relabel_endpoints N_AND_Q_MAX p).
Qed.

Lemma tree_values_and_vertices_in_range_witness :
  ∃ inst,
    example_tree_log = tree_layout 3 3 inst
    ∧ Z.of_nat (length (values inst)) = 3
    ∧ Z.of_nat (length (edges inst)) = 3 - 1
    ∧ Z.of_nat (length (queries inst)) = 3
    ∧ Forall (λ x, 0 ≤ x ≤ 5) (values inst)
    ∧ Forall (λ e, 0 ≤ e.1 < 3 ∧ 0 ≤ e.2 < 3) (edges inst)
    ∧ Forall (query_in_range 3 5) (queries inst).
Proof.
  apply (tree_values_and_vertices_in_range (RS := Lcg.source) 3 5 1).
  - unfold INT_MAX. lia.
  - unfold is_int, INT_MIN, INT_MAX. lia.
  - vm_compute. reflexivity.
Defined.

(** C6.  With [N_AND_Q_MAX = 0] the run does not end normally: the
    constructor of [vector<int> u(n - 1)] receives [-1], which is
    [2^64 - 1] as a [size_t], and throws [std::length_error]. *)
Theorem tree_zero_vertices_fails {RS : RandomSource} (A_AND_X_MAX seed : Z) :
  Line.main 0 A_AND_X_MAX seed = Fail LengthError.
Proof. reflexivity. Qed.

(** ** The pairs of digit strings *)

(** C4.  For every seed and every budget: when the loop of [medium.cpp],
    run with the tier of the seed, has ended, [A] and [B] hold as many
    strings, and in every accepted pair [B] is not empty and does not start
    with ['0'], and [A] is not empty and starts with ['0'] only when its
    length is 1; the pairs that a finished run prints are such pairs. *)
Theorem accepted_pairs_well_formed {RS : RandomSource} {RL : RandomLaws RS}
    (SUM_OF_CHARACTER_LENGTH seed upper : Z) (fuel : nat) (st0 st1 st2 : State)
    (A B : list string) (lsum : Z) :
  Medium.tier seed st0 = Done (upper, st1) →
  Medium.generate SUM_OF_CHARACTER_LENGTH fuel upper st1 = Done ((A, B, lsum), st2) →
  (length A = length B ∧ Forall well_formed_pair (zip A B))
  ∧ ∀ log, Medium.main SUM_OF_CHARACTER_LENGTH fuel seed = Done log →
      ∃ count ps,
        log = Printf "%d\n" [Int count] :: (pair_event <$> ps)
        ∧ Forall well_formed_pair ps.
Proof.
  intros Htier Hgen. split.
  - apply medium_tier_range in Htier as (_ & Hupper & _).
    apply (medium_generate_well_formed _ _ _ _ _ _ _ _ (proj1 Hupper) Hgen).
  - apply medium_main_printed.
Qed.

Lemma accepted_pairs_well_formed_witness :
  (length example_vars.1.1 = length example_vars.1.2
   ∧ Forall well_formed_pair (zip example_vars.1.1 example_vars.1.2))
  ∧ ∀ log, Medium.main (RS := Lcg.source) 50 26 0 = Done log →
      ∃ count ps,
        log = Printf "%d\n" [Int count] :: (pair_event <$> ps)
        ∧ Forall well_formed_pair ps.
Proof.
  apply (accepted_pairs_well_formed (RS := Lcg.source) 50 0 10 26
           example_start example_start example_end _ _ example_vars.2).
  - reflexivity.
  - vm_compute (Medium.generate _ _ _ _). reflexivity.
Defined.

(** C2, amended.  For every seed and every budget with
    [0 <= SUM_OF_CHARACTER_LENGTH <= INT_MAX - 20000]: a finished run prints
    pairs whose sum of [|A_i| + |B_i|] is at most the budget.  In a turn of
    the loop that starts with accepted pairs within the budget, the
    candidate is the pair [(sa, sb)] of the strings drawn in that turn: the
    lengths come from the draws of lines 18, 19 and 21, the digits from the
    loops of lines 25-32.  When the total with their full lengths is over
    the budget the turn appends nothing, [A] and [B] stay as they are and
    the loop is left there; otherwise both strings are appended whole. *)
Theorem emitted_pairs_within_budget {RS : RandomSource} {RL : RandomLaws RS}
    (SUM_OF_CHARACTER_LENGTH seed upper : Z) (fuel : nat) (log : list event)
    (A B : list string) (st : State) :
  valid_budget SUM_OF_CHARACTER_LENGTH →
  Medium.main SUM_OF_CHARACTER_LENGTH fuel seed = Done log →
  1 ≤ upper ≤ TIER_MAX →
  total (zip A B) ≤ SUM_OF_CHARACTER_LENGTH →
  (∃ ps, log = pairs_layout ps ∧ total ps ≤ SUM_OF_CHARACTER_LENGTH)
  ∧ ∃ alen blen c g1 g2 g3 sa st1 sb st2,
      uniform 1 upper (gen st) = Some (alen, g1)
      ∧ uniform 1 upper g1 = Some (blen, g2)
      ∧ uniform 0 9 g2 = Some (c, g3)
      ∧ Medium.digits_a (if decide (c ≠ 0) then alen `max` blen else alen)
          (mkState g3 (stdout st)) = Done (sa, st1)
      ∧ Medium.digits_b (if decide (c ≠ 0) then alen `min` blen else blen) st1
        = Done (sb, st2)
      ∧ 1 ≤ size sa ∧ 1 ≤ size sb
      ∧ Medium.body SUM_OF_CHARACTER_LENGTH upper (A, B, total (zip A B)) st
        = Done
            (if decide (total (zip A B) + size sa + size sb > SUM_OF_CHARACTER_LENGTH)
             then inr (A, B, total (zip A B) + size sa + size sb)
             else inl (A ++ [sa], B ++ [sb], total (zip A B) + size sa + size sb),
             st2)
      ∧ (total (zip A B) + size sa + size sb > SUM_OF_CHARACTER_LENGTH →
         ∀ turns,
           while_true (S turns) (Medium.body SUM_OF_CHARACTER_LENGTH upper)
             (A, B, total (zip A B)) st
           = Done ((A, B, total (zip A B) + size sa + size sb), st2)).
Proof.
  intros Hvalid Hrun Hupper Htotal. split.
  - destruct (medium_main_layout _ _ _ _ Hvalid Hrun) as (ps & -> & _ & Hle & _).
    by exists ps.
  - destruct (medium_body_candidate SUM_OF_CHARACTER_LENGTH upper A B
                (total (zip A B)) st)
      as (alen & blen & c & g1 & g2 & g3 & sa & st1 & sb & st2
          & H1 & H2 & H3 & Hda & Hdb & Hsa & Hsb & Hbody); [lia|].
    pose proof (total_nonneg (zip A B)).
    rewrite (next_lsum_exact _ upper) in Hbody by (done || lia).
    exists alen, blen, c, g1, g2, g3, sa, st1, sb, st2.
    split_and!; [done..|lia|lia|done|].
    intros Hover turns. cbn [while_true]. unfold bind at 1.
    by rewrite Hbody, decide_True.
Qed.

Lemma emitted_pairs_within_budget_witness :
  (∃ ps, example_pairs_log = pairs_layout ps ∧ total ps ≤ 50)
  ∧ ∃ alen blen c g1 g2 g3 sa st1 sb st2,
      uniform 1 10 (gen example_start) = Some (alen, g1)
      ∧ uniform 1 10 g1 = Some (blen, g2)
      ∧ uniform 0 9 g2 = Some (c, g3)
      ∧ Medium.digits_a (if decide (c ≠ 0) then alen `max` blen else alen)
          (mkState g3 (stdout example_start)) = Done (sa, st1)
      ∧ Medium.digits_b (if decide (c ≠ 0) then alen `min` blen else blen) st1
        = Done (sb, st2)
      ∧ 1 ≤ size sa ∧ 1 ≤ size sb
      ∧ Medium.body (RS := Lcg.source) 50 10 ([], [], total (zip [] [])) example_start
        = Done
            (if decide (total (zip [] []) + size sa + size sb > 50)
             then inr ([], [], total (zip [] []) + size sa + size sb)
             else inl ([] ++ [sa], [] ++ [sb], total (zip [] []) + size sa + size sb),
             st2)
      ∧ (total (zip [] []) + size sa + size sb > 50 →
         ∀ turns,
           while_true (S turns) (Medium.body (RS := Lcg.source) 50 10)
             ([], [], total (zip [] [])) example_start
           = Done (([], [], total (zip [] []) + size sa + size sb), st2)).
Proof.
  apply (emitted_pairs_within_budget (RS := Lcg.source) 50 0 10 26).
  - unfold valid_budget, TIER_MAX, INT_MAX. lia.
  - vm_compute. reflexivity.
  - unfold TIER_MAX. lia.
  - simpl. lia.
Defined.

(** C2 as stated fails at both ends of the range of budgets.  With the
    budget [-1] and seed 0 the run prints no pair, and their total, 0, is
    above the budget.  With the budget [INT_MAX] no candidate is ever
    discarded: whatever the pairs accepted so far and the running total, the
    turn appends the candidate and the loop goes on. *)
Lemma emitted_pairs_within_budget_counterexample :
  (Medium.main (RS := Lcg.source) (-1) 1 0 = Done (pairs_layout [])
   ∧ ¬ total [] ≤ -1)
  ∧ (∀ A B lsum st, ∃ sa sb lsum' st',
       Medium.body (RS := Lcg.source) INT_MAX 10 (A, B, lsum) st
       = Done (inl (A ++ [sa], B ++ [sb], lsum'), st')).
Proof.
  split.
  - split; [vm_compute; reflexivity|]. unfold total. simpl. lia.
  - intros A B lsum st. apply medium_body_int_max. lia.
Qed.

(** C10.  For every seed, with a budget
    [0 <= SUM_OF_CHARACTER_LENGTH <= INT_MAX - 20000]: the number of pairs
    printed, which is the number on the first line, is at most
    [SUM_OF_CHARACTER_LENGTH / 2]. *)
Theorem pair_count_at_most_half_budget {RS : RandomSource} {RL : RandomLaws RS}
    (SUM_OF_CHARACTER_LENGTH seed : Z) (fuel : nat) (log : list event) :
  valid_budget SUM_OF_CHARACTER_LENGTH →
  Medium.main SUM_OF_CHARACTER_LENGTH fuel seed = Done log →
  ∃ ps,
    log = pairs_layout ps
    ∧ head log = Some (Printf "%d\n" [Int (Z.of_nat (length ps))])
    ∧ Z.of_nat (length ps) ≤ SUM_OF_CHARACTER_LENGTH `quot` 2.
Proof.
  intros Hvalid Hrun.
  destruct (medium_main_layout _ _ _ _ Hvalid Hrun)
    as (ps & -> & Hwf & Hle & _).
  exists ps. split_and!; [done..|].
  pose proof (total_count _ Hwf) as Hcount. destruct Hvalid as [H0 _].
  apply Z.quot_le_lower_bound; lia.
Qed.

Lemma pair_count_at_most_half_budget_witness :
  ∃ ps,
    example_pairs_log = pairs_layout ps
    ∧ head example_pairs_log = Some (Printf "%d\n" [Int (Z.of_nat (length ps))])
    ∧ Z.of_nat (length ps) ≤ 50 `quot` 2.
Proof.
  apply (pair_count_at_most_half_budget (RS := Lcg.source) 50 0 26).
  - unfold valid_budget, TIER_MAX, INT_MAX. lia.
  - vm_compute. reflexivity.
Defined.

(** C9, amended.  For every seed and every budget with
    [0 <= SUM_OF_CHARACTER_LENGTH <= INT_MAX - 20000], the loop ends within
    [SUM_OF_CHARACTER_LENGTH / 2 + 1] turns, from every state of the Random
    Source and for every tier of the table; the run of [medium.cpp] ends
    with it, normally when [seed % 3] is not negative. *)
Theorem generation_terminates {RS : RandomSource} {RL : RandomLaws RS}
    (SUM_OF_CHARACTER_LENGTH seed upper : Z) (fuel : nat) (st : State) :
  valid_budget SUM_OF_CHARACTER_LENGTH →
  (Z.to_nat (SUM_OF_CHARACTER_LENGTH `div` 2) < fuel)%nat →
  1 ≤ upper ≤ TIER_MAX →
  (∃ l st', Medium.generate SUM_OF_CHARACTER_LENGTH fuel upper st = Done (l, st'))
  ∧ Medium.main SUM_OF_CHARACTER_LENGTH fuel seed ≠ OutOfFuel
  ∧ (0 ≤ seed `rem` 3 →
     ∃ log, Medium.main SUM_OF_CHARACTER_LENGTH fuel seed = Done log).
Proof.
  intros Hvalid Hfuel Hupper. split_and!.
  - destruct (medium_generate_wp _ fuel upper st Hvalid Hupper Hfuel)
      as (l & st' & Hrun & _). by exists l, st'.
  - destruct (medium_main_terminates _ fuel seed Hvalid Hfuel)
      as [(_ & log & ->)|(_ & ->)]; done.
  - intros Hrem.
    destruct (medium_main_terminates _ fuel seed Hvalid Hfuel)
      as [(_ & log & ->)|(Hneg & _)]; [by exists log|lia].
Qed.

Lemma generation_terminates_witness :
  (∃ l st', Medium.generate (RS := Lcg.source) 50 26 10 example_start = Done (l, st'))
  ∧ Medium.main (RS := Lcg.source) 50 26 0 ≠ OutOfFuel
  ∧ (0 ≤ 0 `rem` 3 → ∃ log, Medium.main (RS := Lcg.source) 50 26 0 = Done log).
Proof.
  apply (generation_terminates (RS := Lcg.source) 50 0 10 26 example_start).
  - unfold valid_budget, TIER_MAX, INT_MAX. lia.
  - vm_compute. lia.
  - unfold TIER_MAX. lia.
Defined.

(** C9 as stated fails for the budget [INT_MAX = 2147483647]: the [int]
    total of line 33 is never above it, so the loop is not left, whatever
    the fuel. *)
Lemma generation_terminates_counterexample :
  ¬ ∃ fuel, Medium.main (RS := Lcg.source) INT_MAX fuel 0 ≠ OutOfFuel.
Proof. intros [fuel Hend]. apply Hend. by apply medium_main_int_max. Qed.

(** C5.  The seed [-1]: [seed % 3] is [-1], the index is outside the table
    [{10, 300, 10000}], and the run ends there. *)
Theorem tier_of_negative_seed {RS : RandomSource}
    (SUM_OF_CHARACTER_LENGTH : Z) (fuel : nat) (st : State) :
  Medium.tier (-1) st = Fail OutOfBounds
  ∧ Medium.main SUM_OF_CHARACTER_LENGTH fuel (-1) = Fail OutOfBounds.
Proof. split; reflexivity. Qed.

(** ** Both generators *)

(** C7.  For every seed, with [N_AND_Q_MAX >= 1], [A_AND_X_MAX >= 0] (values
    of [int]) and a tier [upper >= 1]: every call of [uniform] has
    [lo <= hi].  A call with [lo > hi] ends the run in [InvalidRangeError]
    ([gen_uniform_invalid]), and no run ends so: [line.cpp] even ends
    normally, the loop of [medium.cpp] with any tier [upper >= 1] does not
    fail, and neither does a whole run of [medium.cpp] for a seed with
    [seed % 3 >= 0], whose tier is an entry of the table. *)
Theorem uniform_ranges_valid {RS : RandomSource} {RL : RandomLaws RS}
    (N_AND_Q_MAX A_AND_X_MAX SUM_OF_CHARACTER_LENGTH seed upper : Z)
    (fuel : nat) (st : State) :
  1 ≤ N_AND_Q_MAX ≤ INT_MAX →
  0 ≤ A_AND_X_MAX ≤ INT_MAX →
  1 ≤ upper →
  (∃ log, Line.main N_AND_Q_MAX A_AND_X_MAX seed = Done log)
  ∧ Medium.generate SUM_OF_CHARACTER_LENGTH fuel upper st ≠ Fail InvalidRangeError
  ∧ (0 ≤ seed `rem` 3 →
     Medium.main SUM_OF_CHARACTER_LENGTH fuel seed ≠ Fail InvalidRangeError).
Proof.
  intros HN HA Hupper. split_and!.
  - destruct (line_main_layout _ _ HN HA seed) as (log & Hrun & _). by exists log.
  - by apply medium_generate_no_fail.
  - apply medium_main_no_range_error.
Qed.

Lemma uniform_ranges_valid_witness :
  (∃ log, Line.main (RS := Lcg.source) 3 5 1 = Done log)
  ∧ Medium.generate (RS := Lcg.source) 50 26 10 example_start ≠ Fail InvalidRangeError
  ∧ Medium.main (RS := Lcg.source) 50 26 1 ≠ Fail InvalidRangeError.
Proof.
  destruct (uniform_ranges_valid (RS := Lcg.source) 3 5 50 1 10 26 example_start)
    as (Hline & Hloop & Hrun).
  - unfold INT_MAX. lia.
  - unfold INT_MAX. lia.
  - lia.
  - split_and!; [exact Hline|exact Hloop|]. apply Hrun. vm_compute. discriminate.
Defined.

(** * Further properties of the generators *)

(** ** [line.cpp] *)

(** X1.  With [N_AND_Q_MAX >= 1] and [A_AND_X_MAX >= 0] (values of [int])
    the run of [line.cpp] ends normally for every seed, and the bytes on
    standard output are the text of an instance: the line [N N], the [N]
    values separated by single blanks, [N - 1] edge lines and [N] query
    lines, every number in decimal and every line ended by a line feed. *)
Theorem tree_output_text {RS : RandomSource} {RL : RandomLaws RS}
    (N_AND_Q_MAX A_AND_X_MAX seed : Z) :
  1 ≤ N_AND_Q_MAX ≤ INT_MAX →
  0 ≤ A_AND_X_MAX ≤ INT_MAX →
  ∃ inst,
    output (Line.main N_AND_Q_MAX A_AND_X_MAX seed)
    = Some (tree_text N_AND_Q_MAX N_AND_Q_MAX inst)
    ∧ Z.of_nat (length (values inst)) = N_AND_Q_MAX
    ∧ Z.of_nat (length (edges inst)) = N_AND_Q_MAX - 1
    ∧ Z.of_nat (length (queries inst)) = N_AND_Q_MAX.
Proof.
  intros HN HA.
  destruct (line_main_layout _ _ HN HA seed)
    as (log & -> & inst & p & -> & Hvals & _ & _ & Hp & HE & Hqs & _).
  exists inst. cbn [output]. rewrite bytes_tree_layout by done.
  split_and!; [done..| |done].
  rewrite HE, (relabel_length N_AND_Q_MAX p). lia.
Qed.

Lemma tree_output_text_witness :
  ∃ inst,
    output (Line.main (RS := Lcg.source) 3 5 1) = Some (tree_text 3 3 inst)
    ∧ Z.of_nat (length (values inst)) = 3
    ∧ Z.of_nat (length (edges inst)) = 3 - 1
    ∧ Z.of_nat (length (queries inst)) = 3.
Proof.
  apply (tree_output_text (RS := Lcg.source) 3 5 1); unfold INT_MAX; lia.
Defined.

(** X2.  With [N_AND_Q_MAX >= 1] the bound on the values decides how the
    run of [line.cpp] ends: with [(int)A_AND_X_MAX < 0] the first draw of
    line 16 is from an empty range and the run ends there in the error of
    the Random Source, otherwise the run ends normally. *)
Theorem tree_run_outcome {RS : RandomSource} {RL : RandomLaws RS}
    (N_AND_Q_MAX A_AND_X_MAX seed : Z) :
  1 ≤ N_AND_Q_MAX ≤ INT_MAX →
  (to_int A_AND_X_MAX < 0
   ∧ Line.main N_AND_Q_MAX A_AND_X_MAX seed = Fail InvalidRangeError)
  ∨ (0 ≤ to_int A_AND_X_MAX
     ∧ ∃ log, Line.main N_AND_Q_MAX A_AND_X_MAX seed = Done log).
Proof.
  intros HN. destruct (decide (to_int A_AND_X_MAX < 0)) as [Hneg|Hpos].
  - left. split; [done|]. by apply line_main_invalid.
  - right. split; [lia|]. rewrite (line_main_to_int _ _ seed).
    assert (0 ≤ to_int A_AND_X_MAX ≤ INT_MAX) as HA.
    { pose proof (to_int_range A_AND_X_MAX) as [_ Hmax]. lia. }
    destruct (line_main_layout _ _ HN HA seed) as (log & Hlog & _).
    by exists log.
Qed.

Lemma tree_run_outcome_witness :
  (to_int (-1) < 0
   ∧ Line.main (RS := Lcg.source) 3 (-1) 1 = Fail InvalidRangeError)
  ∨ (0 ≤ to_int (-1)
     ∧ ∃ log, Line.main (RS := Lcg.source) 3 (-1) 1 = Done log).
Proof.
  apply (tree_run_outcome (RS := Lcg.source) 3 (-1) 1). unfold INT_MAX. lia.
Defined.

(** X3.  With [N_AND_Q_MAX <= 0] (above [INT_MIN], so that [n - 1] is
    defined) the loop of the values does not run and the constructor of
    [vector<int> u(n - 1)] gets a negative size: the run of [line.cpp] ends
    in [std::length_error] for every seed and every [A_AND_X_MAX]. *)
Theorem tree_no_vertex_fails {RS : RandomSource} (N_AND_Q_MAX A_AND_X_MAX seed : Z) :
  INT_MIN < N_AND_Q_MAX ≤ 0 →
  Line.main N_AND_Q_MAX A_AND_X_MAX seed = Fail LengthError.
Proof. apply line_main_no_vertex. Qed.

Lemma tree_no_vertex_fails_witness :
  Line.main (RS := Lcg.source) (-7) 5 1 = Fail LengthError.
Proof.
  apply (tree_no_vertex_fails (RS := Lcg.source) (-7) 5 1).
  unfold INT_MIN. lia.
Defined.

(** X4.  The edge lines of a finished run of [line.cpp] are a chain: the
    second endpoint of an edge line is the first endpoint of the next one,
    and no edge joins a vertex to itself. *)
Theorem tree_edges_chain {RS : RandomSource} {RL : RandomLaws RS}
    (N_AND_Q_MAX A_AND_X_MAX seed : Z) (log : list event) :
  1 ≤ N_AND_Q_MAX ≤ INT_MAX →
  Line.main N_AND_Q_MAX A_AND_X_MAX seed = Done log →
  ∃ inst,
    log = tree_layout N_AND_Q_MAX N_AND_Q_MAX inst
    ∧ (∀ i a b c d,
         edges inst !! i = Some (a, b) → edges inst !! S i = Some (c, d) → b = c)
    ∧ (∀ a b, (a, b) ∈ edges inst → a ≠ b).
Proof.
  intros HN Hrun.
  destruct (line_main_done _ _ HN _ _ Hrun)
    as (inst & p & -> & _ & _ & _ & Hp & HE & _ & _).
  exists inst. rewrite HE. split_and!; [done| |].
  - apply (relabel_chain N_AND_Q_MAX p).
  - by apply (relabel_no_loop N_AND_Q_MAX p).
Qed.

Lemma tree_edges_chain_witness :
  ∃ inst,
    example_tree_log = tree_layout 3 3 inst
    ∧ (∀ i a b c d,
         edges inst !! i = Some (a, b) → edges inst !! S i = Some (c, d) → b = c)
    ∧ (∀ a b, (a, b) ∈ edges inst → a ≠ b).
Proof.
  apply (tree_edges_chain (RS := Lcg.source) 3 5 1).
  - unfold INT_MAX. lia.
  - vm_compute. reflexivity.
Defined.

(** X5.  In the edge lines of a finished run of [line.cpp] no vertex is
    the first endpoint of two edges and no vertex is the second endpoint of
    two edges, so that no vertex is on more than two edges; with
    [N_AND_Q_MAX >= 2] the first endpoint of the first edge followed by the
    second endpoints of all edges is every vertex of [0 .. N-1] once. *)
Theorem tree_edges_vertices_once {RS : RandomSource} {RL : RandomLaws RS}
    (N_AND_Q_MAX A_AND_X_MAX seed : Z) (log : list event) :
  1 ≤ N_AND_Q_MAX ≤ INT_MAX →
  Line.main N_AND_Q_MAX A_AND_X_MAX seed = Done log →
  ∃ inst,
    log = tree_layout N_AND_Q_MAX N_AND_Q_MAX inst
    ∧ NoDup (edges inst).*1
    ∧ NoDup (edges inst).*2
    ∧ (2 ≤ N_AND_Q_MAX →
       take 1 (edges inst).*1 ++ (edges inst).*2 ≡ₚ seqZ 0 N_AND_Q_MAX).
Proof.
  intros HN Hrun.
  destruct (line_main_done _ _ HN _ _ Hrun)
    as (inst & p & -> & _ & _ & _ & Hp & HE & _ & _).
  exists inst. rewrite HE. split_and!; [done| | |].
  - by apply relabel_fst_NoDup.
  - by apply relabel_snd_NoDup.
  - by apply relabel_vertices.
Qed.

Lemma tree_edges_vertices_once_witness :
  ∃ inst,
    example_tree_log = tree_layout 3 3 inst
    ∧ NoDup (edges inst).*1
    ∧ NoDup (edges inst).*2
    ∧ (2 ≤ 3 → take 1 (edges inst).*1 ++ (edges inst).*2 ≡ₚ seqZ 0 3).
Proof.
  apply (tree_edges_vertices_once (RS := Lcg.source) 3 5 1).
  - unfold INT_MAX. lia.
  - vm_compute. reflexivity.
Defined.

(** ** [medium.cpp] *)

(** X6.  The tier of line 12 for every seed: a negative seed that is not
    a multiple of 3 has [seed % 3 < 0] and reads outside the table; every
    other seed gets the entry 10, 300 or 10000 of its residue modulo 3, and
    the state of the run is untouched. *)
Theorem tier_by_residue {RS : RandomSource} (seed : Z) (st : State) :
  Medium.tier seed st
  = if decide (seed < 0 ∧ seed `mod` 3 ≠ 0) then Fail OutOfBounds
    else Done (tier_of (seed `mod` 3), st).
Proof. apply medium_tier_of. Qed.

(** X7.  For a seed that has a tier (every seed but the negative ones
    that are not multiples of 3) a run of [medium.cpp] ends in no error,
    whatever the budget: no draw is from an empty range and [A[i]], [B[i]]
    of lines 40-42 are inside the vectors.  The run ends normally, or it is
    still in the loop after the turns it was given. *)
Theorem pairs_run_never_fails {RS : RandomSource} {RL : RandomLaws RS}
    (SUM_OF_CHARACTER_LENGTH seed : Z) (fuel : nat) :
  ¬ (seed < 0 ∧ seed `mod` 3 ≠ 0) →
  (∃ log, Medium.main SUM_OF_CHARACTER_LENGTH fuel seed = Done log)
  ∨ Medium.main SUM_OF_CHARACTER_LENGTH fuel seed = OutOfFuel.
Proof.
  intros Hok.
  assert (∀ e, Medium.main SUM_OF_CHARACTER_LENGTH fuel seed ≠ Fail e) as Hnofail.
  { intros e. unfold Medium.main, run, Medium.program.
    set (st0 := mkState (Random (to_u64 (seed + 12345))) []).
    unfold bind at 1. rewrite medium_tier_of, decide_False by done.
    pose proof (tier_of_range (seed `mod` 3)) as [Hupper _].
    unfold bind at 1.
    pose proof (medium_generate_no_fail SUM_OF_CHARACTER_LENGTH fuel _ st0 e Hupper)
      as Hgen.
    destruct (Medium.generate _ fuel _ st0)
      as [[[[A B] lsum] st1]|e'|] eqn:Hrun; [| |done].
    - apply medium_generate_digits in Hrun as [Hlen _]; [|done].
      by destruct (medium_print_any A B st1 Hlen) as ([] & st2 & -> & _).
    - congruence. }
  destruct (Medium.main SUM_OF_CHARACTER_LENGTH fuel seed) as [log|e|].
  - left. by exists log.
  - by destruct (Hnofail e).
  - by right.
Qed.

Lemma pairs_run_never_fails_witness :
  (∃ log, Medium.main (RS := Lcg.source) 50 26 0 = Done log)
  ∨ Medium.main (RS := Lcg.source) 50 26 0 = OutOfFuel.
Proof.
  apply (pairs_run_never_fails (RS := Lcg.source) 50 0 26). lia.
Defined.

(** X8.  Every string that a finished run of [medium.cpp] prints consists
    of decimal digits only and has at least one and at most [upper]
    characters, where [upper] is the tier of the seed (at most 10000),
    whatever the budget. *)
Theorem printed_strings_are_digits {RS : RandomSource} {RL : RandomLaws RS}
    (SUM_OF_CHARACTER_LENGTH seed : Z) (fuel : nat) (log : list event) :
  Medium.main SUM_OF_CHARACTER_LENGTH fuel seed = Done log →
  ∃ count ps,
    log = Printf "%d\n" [Int count] :: (pair_event <$> ps)
    ∧ Forall (digit_pair (tier_of (seed `mod` 3))) ps
    ∧ tier_of (seed `mod` 3) ≤ TIER_MAX.
Proof.
  intros Hrun.
  apply medium_main_pairs in Hrun as (_ & st & A & B & lsum & st' & Hgen & _ & ->).
  pose proof (tier_of_range (seed `mod` 3)) as [Hupper Hmax].
  apply medium_generate_digits in Hgen as [_ Hps]; [|done].
  eexists _, _. split_and!; [done| |done]. by apply Forall_take.
Qed.

Lemma printed_strings_are_digits_witness :
  ∃ count ps,
    example_pairs_log = Printf "%d\n" [Int count] :: (pair_event <$> ps)
    ∧ Forall (digit_pair (tier_of (0 `mod` 3))) ps
    ∧ tier_of (0 `mod` 3) ≤ TIER_MAX.
Proof.
  apply (printed_strings_are_digits (RS := Lcg.source) 50 0 26).
  vm_compute. reflexivity.
Defined.

(** X9.  Every string that a finished run of [medium.cpp] prints is the
    decimal numeral of a natural number, without a sign and without
    superfluous zeros in front, and the number of [B], the divisor, is not
    zero. *)
Theorem printed_strings_are_numerals {RS : RandomSource} {RL : RandomLaws RS}
    (SUM_OF_CHARACTER_LENGTH seed : Z) (fuel : nat) (log : list event) :
  Medium.main SUM_OF_CHARACTER_LENGTH fuel seed = Done log →
  ∃ count ps,
    log = Printf "%d\n" [Int count] :: (pair_event <$> ps)
    ∧ Forall (λ ab, pretty (number ab.1) = ab.1
                    ∧ pretty (number ab.2) = ab.2
                    ∧ (1 ≤ number ab.2)%N) ps.
Proof.
  intros Hrun.
  apply medium_main_pairs in Hrun as (_ & st & A & B & lsum & st' & Hgen & _ & ->).
  pose proof (tier_of_range (seed `mod` 3)) as [Hupper _].
  apply medium_generate_digits in Hgen as [_ Hps]; [|done].
  eexists _, _. split; [done|]. apply Forall_take.
  eapply Forall_impl; [exact Hps|].
  intros [a b] ((Ha1 & Ha0 & Hb1 & Hb0) & _ & _ & Ha & Hb). simpl in *.
  destruct (pretty_number b Hb Hb1 Hb0) as [Hpb Hnb].
  split_and!; [|done..]. by apply pretty_number_zero.
Qed.

Lemma printed_strings_are_numerals_witness :
  ∃ count ps,
    example_pairs_log = Printf "%d\n" [Int count] :: (pair_event <$> ps)
    ∧ Forall (λ ab, pretty (number ab.1) = ab.1
                    ∧ pretty (number ab.2) = ab.2
                    ∧ (1 ≤ number ab.2)%N) ps.
Proof.
  apply (printed_strings_are_numerals (RS := Lcg.source) 50 0 26).
  vm_compute. reflexivity.
Defined.

(** X10.  With a valid budget a finished run of [medium.cpp] uses the
    budget up to less than one candidate of the tier [upper] of the seed:
    the printed pairs have more than [SUM - 2 * upper] characters, and
    there are more than [SUM / (2 * upper) - 1] of them. *)
Theorem budget_nearly_used {RS : RandomSource} {RL : RandomLaws RS}
    (SUM_OF_CHARACTER_LENGTH seed : Z) (fuel : nat) (log : list event) :
  valid_budget SUM_OF_CHARACTER_LENGTH →
  Medium.main SUM_OF_CHARACTER_LENGTH fuel seed = Done log →
  ∃ ps,
    log = pairs_layout ps
    ∧ SUM_OF_CHARACTER_LENGTH < total ps + 2 * tier_of (seed `mod` 3)
    ∧ SUM_OF_CHARACTER_LENGTH
      < 2 * tier_of (seed `mod` 3) * (Z.of_nat (length ps) + 1).
Proof.
  intros Hvalid Hrun.
  apply medium_main_pairs in Hrun as (_ & st & A & B & lsum & st' & Hgen & Hlen & ->).
  pose proof (tier_of_range (seed `mod` 3)) as Hupper.
  pose proof (medium_generate_slack _ _ _ _ _ _ _ _ Hvalid Hupper Hgen) as Hslack.
  pose proof (medium_generate_done _ _ _ _ _ _ Hvalid Hupper Hgen)
    as (_ & _ & Hwf & Hle & _).
  apply medium_generate_digits in Hgen as [_ Hps]; [|lia].
  pose proof (total_count _ Hwf) as Hcount.
  pose proof (total_digit_pairs _ _ Hps) as Htotal.
  assert (length (zip A B) = length A) as HlenAB.
  { rewrite length_zip_with. lia. }
  rewrite HlenAB in Hcount, Htotal.
  rewrite to_int_id by int_lia.
  exists (zip A B). unfold pairs_layout.
  rewrite take_ge, HlenAB by lia. split_and!; [done|done|lia].
Qed.

Lemma budget_nearly_used_witness :
  ∃ ps,
    example_pairs_log = pairs_layout ps
    ∧ 50 < total ps + 2 * tier_of (0 `mod` 3)
    ∧ 50 < 2 * tier_of (0 `mod` 3) * (Z.of_nat (length ps) + 1).
Proof.
  apply (budget_nearly_used (RS := Lcg.source) 50 0 26).
  - unfold valid_budget, TIER_MAX, INT_MAX. lia.
  - vm_compute. reflexivity.
Defined.

(** X11.  With a budget below 2 (negative budgets included) the first
    candidate is over the budget: for every seed that has a tier the loop
    ends in its first turn and the run prints the line [0] and nothing
    else. *)
Theorem small_budget_prints_zero {RS : RandomSource} {RL : RandomLaws RS}
    (SUM_OF_CHARACTER_LENGTH seed : Z) (fuel : nat) :
  SUM_OF_CHARACTER_LENGTH < 2 →
  ¬ (seed < 0 ∧ seed `mod` 3 ≠ 0) →
  Medium.main SUM_OF_CHARACTER_LENGTH (S fuel) seed = Done (pairs_layout [])
  ∧ output (Medium.main SUM_OF_CHARACTER_LENGTH (S fuel) seed) = Some ("0" +:+ LF).
Proof.
  intros Hsmall Hseed.
  by rewrite medium_main_small.
Qed.

Lemma small_budget_prints_zero_witness :
  Medium.main (RS := Lcg.source) 1 1 7 = Done (pairs_layout [])
  ∧ output (Medium.main (RS := Lcg.source) 1 1 7) = Some ("0" +:+ LF).
Proof.
  apply (small_budget_prints_zero (RS := Lcg.source) 1 7 0); lia.
Defined.

(** X12.  One turn of the loop of [medium.cpp] (lines 17-36): with the
    lengths [alen] and [blen] and the number [c] drawn in lines 18, 19 and
    21, the candidate [sa] has [max alen blen] digits and [sb] has
    [min alen blen] when [c] is not 0, and [alen] and [blen] digits when it
    is; so [sb] is not longer than [sa] unless [c = 0]. *)
Theorem candidate_lengths {RS : RandomSource} {RL : RandomLaws RS}
    (SUM_OF_CHARACTER_LENGTH upper : Z) (A B : list string) (lsum : Z)
    (st : State) :
  1 ≤ upper →
  wp (Medium.body SUM_OF_CHARACTER_LENGTH upper (A, B, lsum)) st (λ r st',
    ∃ alen blen c g1 g2 g3 sa sb,
      uniform 1 upper (gen st) = Some (alen, g1)
      ∧ uniform 1 upper g1 = Some (blen, g2)
      ∧ uniform 0 9 g2 = Some (c, g3)
      ∧ size sa = (if decide (c ≠ 0) then alen `max` blen else alen)
      ∧ size sb = (if decide (c ≠ 0) then alen `min` blen else blen)
      ∧ (c ≠ 0 → size sb ≤ size sa)
      ∧ r = if decide (next_lsum lsum sa sb > SUM_OF_CHARACTER_LENGTH)
            then inr (A, B, next_lsum lsum sa sb)
            else inl (A ++ [sa], B ++ [sb], next_lsum lsum sa sb)).
Proof.
  intros Hupper. eapply wp_mono; [by apply medium_body_draws|].
  intros r st' (_ & alen & blen & c & g1 & g2 & g3 & sa & sb
                & H1 & H2 & H3 & _ & _ & _ & Hsa & Hsb & _ & Hr).
  exists alen, blen, c, g1, g2, g3, sa, sb. split_and!; [done..| |done].
  intros Hc. rewrite Hsa, Hsb, !decide_True by done. lia.
Qed.

Lemma candidate_lengths_witness :
  wp (Medium.body (RS := Lcg.source) 50 10 ([], [], 0)) example_start (λ r st',
    ∃ alen blen c g1 g2 g3 sa sb,
      uniform 1 10 (gen example_start) = Some (alen, g1)
      ∧ uniform 1 10 g1 = Some (blen, g2)
      ∧ uniform 0 9 g2 = Some (c, g3)
      ∧ size sa = (if decide (c ≠ 0) then alen `max` blen else alen)
      ∧ size sb = (if decide (c ≠ 0) then alen `min` blen else blen)
      ∧ (c ≠ 0 → size sb ≤ size sa)
      ∧ r = if decide (next_lsum 0 sa sb > 50)
            then inr ([], [], next_lsum 0 sa sb)
            else inl ([] ++ [sa], [] ++ [sb], next_lsum 0 sa sb)).
Proof.
  apply (candidate_lengths (RS := Lcg.source) 50 10 [] [] 0 example_start). lia.
Defined.

(** X13.  With a valid budget the bytes that a finished run of
    [medium.cpp] writes are the text of its pairs: the count in decimal on
    the first line, then one line [A_i B_i] for every pair, the two strings
    separated by one blank, every line ended by a line feed; the strings
    are digit strings of the tier of the seed, within the budget. *)
Theorem pairs_output_text {RS : RandomSource} {RL : RandomLaws RS}
    (SUM_OF_CHARACTER_LENGTH seed : Z) (fuel : nat) (log : list event) :
  valid_budget SUM_OF_CHARACTER_LENGTH →
  Medium.main SUM_OF_CHARACTER_LENGTH fuel seed = Done log →
  ∃ ps,
    output (Medium.main SUM_OF_CHARACTER_LENGTH fuel seed) = Some (pairs_text ps)
    ∧ Forall (digit_pair (tier_of (seed `mod` 3))) ps
    ∧ total ps ≤ SUM_OF_CHARACTER_LENGTH.
Proof.
  intros Hvalid Hrun. rewrite Hrun. cbn [output].
  apply medium_main_pairs in Hrun as (_ & st & A & B & lsum & st' & Hgen & Hlen & ->).
  pose proof (tier_of_range (seed `mod` 3)) as Hupper.
  pose proof (medium_generate_done _ _ _ _ _ _ Hvalid Hupper Hgen)
    as (_ & _ & Hwf & Hle & _).
  apply medium_generate_digits in Hgen as [_ Hps]; [|lia].
  pose proof (total_count _ Hwf) as Hcount.
  assert (length (zip A B) = length A) as HlenAB.
  { rewrite length_zip_with. lia. }
  rewrite HlenAB in Hcount.
  rewrite to_int_id by int_lia.
  exists (zip A B). rewrite take_ge by lia. split_and!; [|done..].
  f_equal. rewrite <- bytes_pairs_layout. unfold pairs_layout. by rewrite HlenAB.
Qed.

Lemma pairs_output_text_witness :
  ∃ ps,
    output (Medium.main (RS := Lcg.source) 50 26 0) = Some (pairs_text ps)
    ∧ Forall (digit_pair (tier_of (0 `mod` 3))) ps
    ∧ total ps ≤ 50.
Proof.
  apply (pairs_output_text (RS := Lcg.source) 50 0 26 example_pairs_log).
  - unfold valid_budget, TIER_MAX, INT_MAX. lia.
  - vm_compute. reflexivity.
Defined.

(** X14.  With a valid budget the loop of [medium.cpp] (lines 16-37)
    makes exactly one turn more than the number of pairs the run prints,
    one for every accepted pair and one for the candidate that ends it: a
    run that is given more turns than there are pairs ends with the same
    output, a run with fewer is still in the loop. *)
Theorem pairs_loop_turns {RS : RandomSource} {RL : RandomLaws RS}
    (SUM_OF_CHARACTER_LENGTH seed : Z) (fuel : nat) (log : list event) :
  valid_budget SUM_OF_CHARACTER_LENGTH →
  Medium.main SUM_OF_CHARACTER_LENGTH fuel seed = Done log →
  ∃ ps,
    log = pairs_layout ps
    ∧ ∀ fuel', Medium.main SUM_OF_CHARACTER_LENGTH fuel' seed
        = if decide (length ps < fuel')%nat then Done log else OutOfFuel.
Proof. apply medium_main_turns. Qed.

Lemma pairs_loop_turns_witness :
  ∃ ps,
    example_pairs_log = pairs_layout ps
    ∧ ∀ fuel', Medium.main (RS := Lcg.source) 50 fuel' 0
        = if decide (length ps < fuel')%nat then Done example_pairs_log
          else OutOfFuel.
Proof.
  apply (pairs_loop_turns (RS := Lcg.source) 50 0 26).
  - unfold valid_budget, TIER_MAX, INT_MAX. lia.
  - vm_compute. reflexivity.
Defined.
